(** * Particle advance of a 1D electromagnetic PIC code: [spec_advance]

    Shallow embedding of [spec_advance] (ANNOTATED_spec_advance.c) and of the
    properties its specification states about the relativistic Boris push,
    the displacement / cell-crossing step, the energy reduction and the
    boundary pass (periodic wrap or absorbing compaction).

    Conventions of the embedding:
    - C [int] is a 32-bit two's complement integer, carried as a [Z] with the
      wrap-around of every arithmetic operation written out ([int_add],
      [int_sub]); statements about plain sums carry the range conditions
      under which no operation wraps;
    - C [float] / [double] values are carried as real numbers [R]: the
      arithmetic is exact, rounding and overflow are not modelled, and the
      statements made on these values are statements over the reals; the
      statements on signs and definedness of the energy term are made on the
      binary32 evaluation of module [F32];
    - the particle buffer [spec->part] is a list, read and written by index;
      an access outside the buffer is a [Fault];
    - loops are run with fuel; the statements give the fuel that suffices;
    - helpers that the translation unit only calls ([interpolate_fld],
      [ltrim], [dep_current_zamb], [spec_move_window], [spec_sort]) and the
      constant [PART_BC_OPEN] are parameters of [spec_advance]; module [Zamb]
      separately models the deposit from its specification. *)

From Stdlib Require Import ZArith Reals Lra Lia.
From Stdlib Require Import Floats.SpecFloat.
From stdpp Require Import base tactics option list.

Local Open Scope Z_scope.

(** ** Machine integers *)

Definition int_min : Z := - 2 ^ 31.
Definition int_max : Z := 2 ^ 31 - 1.

Definition int_range (z : Z) : Prop := int_min <= z <= int_max.

Definition int_wrap (z : Z) : Z := (z + 2 ^ 31) mod 2 ^ 32 - 2 ^ 31.

Definition int_add (a b : Z) : Z := int_wrap (a + b).
Definition int_sub (a b : Z) : Z := int_wrap (a - b).

(** ** Outcomes of a run: a value, an out-of-bounds access, or no fuel left *)

Inductive outcome (A : Type) : Type :=
  | Done (a : A)
  | Fault
  | OutOfFuel.

Arguments Done {A} a.
Arguments Fault {A}.
Arguments OutOfFuel {A}.

#[global] Instance outcome_ret : MRet outcome := fun A a => Done a.
#[global] Instance outcome_bind : MBind outcome := fun A B f m =>
  match m with
  | Done a => f a
  | Fault => Fault
  | OutOfFuel => OutOfFuel
  end.

(** ** Data model *)

Abbreviation float := R (only parsing).

Record float3 : Type := mk_float3 { fx : float; fy : float; fz : float }.

Record t_part : Type := mk_part {
  ix : Z;
  x  : float;
  ux : float;
  uy : float;
  uz : float
}.

Record t_species : Type := mk_species {
  part : list t_part;
  np : Z;
  dt : float;
  dx : float;
  m_q : float;
  q : float;
  nx : Z;
  energy : float;
  iter : Z;
  moving_window : Z;
  bc_type : Z;
  n_sort : Z
}.

Definition set_part (l : list t_part) (s : t_species) : t_species :=
  mk_species l (np s) (dt s) (dx s) (m_q s) (q s) (nx s) (energy s) (iter s)
             (moving_window s) (bc_type s) (n_sort s).

Definition set_np (n : Z) (s : t_species) : t_species :=
  mk_species (part s) n (dt s) (dx s) (m_q s) (q s) (nx s) (energy s) (iter s)
             (moving_window s) (bc_type s) (n_sort s).

Definition set_energy (e : float) (s : t_species) : t_species :=
  mk_species (part s) (np s) (dt s) (dx s) (m_q s) (q s) (nx s) e (iter s)
             (moving_window s) (bc_type s) (n_sort s).

Definition set_iter (n : Z) (s : t_species) : t_species :=
  mk_species (part s) (np s) (dt s) (dx s) (m_q s) (q s) (nx s) (energy s) n
             (moving_window s) (bc_type s) (n_sort s).

(** [spec->part[i]] as an rvalue and as an lvalue. *)

Definition read_part (l : list t_part) (i : Z) : outcome t_part :=
  if i <? 0 then Fault
  else match l !! Z.to_nat i with
       | Some p => Done p
       | None => Fault
       end.

Definition write_part (l : list t_part) (i : Z) (p : t_part) : outcome (list t_part) :=
  if i <? 0 then Fault
  else match l !! Z.to_nat i with
       | Some _ => Done (<[Z.to_nat i := p]> l)
       | None => Fault
       end.

(** ** The per-particle body of the main loop (lines 59-188) *)

Section Pusher.
Local Open Scope R_scope.

(** Cell-crossing helper [ltrim], called at line 140. *)
Variable ltrim : float -> Z.

(** [tem] of line 22 and the two ratios of lines 23 and 26. *)
Definition tem_of (spec : t_species) : float := 0.5 * dt spec / m_q spec.
Definition dt_dx_of (spec : t_species) : float := dt spec / dx spec.
Definition qnx_of (spec : t_species) : float := q spec * dx spec / dt spec.

(** Lines 73-79: half electric acceleration. *)
Definition scale3 (v : float3) (k : float) : float3 :=
  mk_float3 (fx v * k) (fy v * k) (fz v * k).

Definition half_accel (u E : float3) : float3 :=
  mk_float3 (fx u + fx E) (fy u + fy E) (fz u + fz E).

(** Lines 83-90: [u2], [gamma] and the energy term, in exact arithmetic
    ([F32.u2_of], [F32.gamma_of] and [F32.kin_term] evaluate the same lines
    in binary32). *)
Definition u2_of (ut : float3) : float :=
  fx ut * fx ut + fy ut * fy ut + fz ut * fz ut.

Definition gamma_of (ut : float3) : float := sqrt (1 + u2_of ut).

Definition kin_term (ut : float3) : float := u2_of ut / (1 + gamma_of ut).

(** Line 100. *)
Definition otsq_of (B : float3) : float :=
  2 / (1 + fx B * fx B + fy B * fy B + fz B * fz B).

(** Lines 102-104 and 112-114: the two cross products of the rotation. *)
Definition rot_first (ut B : float3) : float3 :=
  mk_float3 (fx ut + fy ut * fz B - fz ut * fy B)
            (fy ut + fz ut * fx B - fx ut * fz B)
            (fz ut + fx ut * fy B - fy ut * fx B).

Definition rot_second (ut u B : float3) : float3 :=
  mk_float3 (fx ut + (fy u * fz B - fz u * fy B))
            (fy ut + (fz u * fx B - fx u * fz B))
            (fz ut + (fx u * fy B - fy u * fx B)).

(** Lines 73-120: the momentum push for a field sample [(Ep, Bp)]. *)
Definition boris_push (tem : float) (u Ep Bp : float3) : float3 :=
  let Ep := scale3 Ep tem in
  let ut := half_accel u Ep in
  let gamma := gamma_of ut in
  let gtem := tem / gamma in
  let Bp := scale3 Bp gtem in
  let otsq := otsq_of Bp in
  let u' := rot_first ut Bp in
  let Bp := scale3 Bp otsq in
  let ut := rot_second ut u' Bp in
  half_accel ut Ep.

(** Energy term of line 90 for the same inputs. *)
Definition push_energy (tem : float) (u Ep : float3) : float :=
  kin_term (half_accel u (scale3 Ep tem)).

(** What one iteration hands on: the particle as stored back, the energy
    term added to [energy], and the arguments of the deposit call, in exact
    arithmetic ([F32.rg_of], [F32.dx_of], [F32.qvy_of] and [F32.qvz_of]
    evaluate lines 131-146 in binary32). *)
Record t_step : Type := mk_step {
  st_part : t_part;
  st_energy : float;
  st_di : Z;
  st_dx : float;
  st_qvy : float;
  st_qvz : float
}.

Definition momentum (p : t_part) : float3 := mk_float3 (ux p) (uy p) (uz p).

Definition advance_particle (tem dt_dx q : float) (p : t_part)
    (Ep Bp : float3) : t_step :=
  let u := boris_push tem (momentum p) Ep Bp in
  let rg := 1 / sqrt (1 + fx u * fx u + fy u * fy u + fz u * fz u) in
  let dx := dt_dx * rg * fx u in
  let x1 := x p + dx in
  let di := ltrim x1 in
  let x1 := x1 - IZR di in
  let qvy := q * fy u * rg in
  let qvz := q * fz u * rg in
  mk_step (mk_part (int_add (ix p) di) x1 (fx u) (fy u) (fz u))
          (push_energy tem (momentum p) Ep)
          di dx qvy qvz.

End Pusher.

(** ** Loops *)

(** A [while (cond) body] loop.  The fuel bounds the number of iterations the
    model is allowed to run; a loop still willing to iterate when the fuel is
    gone yields [OutOfFuel]. *)
Fixpoint while_loop {S : Type} (cond : S -> bool) (body : S -> outcome S)
    (fuel : nat) (s : S) : outcome S :=
  if cond s then
    match fuel with
    | O => OutOfFuel
    | S fuel' => s' ← body s; while_loop cond body fuel' s'
    end
  else Done s.

(** Sum of a list of reals. *)
Definition Rsum (l : list float) : float := foldr Rplus 0%R l.

(** A loop that has rewritten the first [k] slots with [f]. *)
Definition prefix_map (f : t_part -> t_part) (k : nat) (l : list t_part)
    : list t_part :=
  map f (take k l) ++ drop k l.

(** ** [spec_advance] *)

Section Advance.
Local Open Scope R_scope.

(** Types and helpers declared outside the translation unit. *)
Variable t_emf : Type.
Variable t_current : Type.
Variable interpolate_fld : t_emf -> t_part -> float3 * float3.
Variable ltrim : float -> Z.
Variable dep_current_zamb :
  Z -> Z -> float -> float -> float -> float -> float -> t_current -> t_current.
Variable spec_move_window : t_species -> t_species.
Variable spec_sort : t_species -> t_species.
Variable PART_BC_OPEN : Z.

(** State of the main loop: the counter [i], the particle buffer, the current
    grid and the local accumulator [energy] of line 32. *)
Record push_state : Type := mk_push_state {
  ps_i : Z;
  ps_part : list t_part;
  ps_current : t_current;
  ps_energy : float
}.

(** Lines 59-188 for the particle in slot [i], followed by [i++]. *)
Definition push_body (tem dt_dx qnx qs : float) (emf : t_emf)
    (st : push_state) : outcome push_state :=
  let i := ps_i st in
  p ← read_part (ps_part st) i;
  let EB := interpolate_fld emf p in
  let r := advance_particle ltrim tem dt_dx qs p (fst EB) (snd EB) in
  l' ← write_part (ps_part st) i (st_part r);
  Done (mk_push_state (int_add i 1) l'
          (dep_current_zamb (ix p) (st_di r) (x p) (st_dx r) qnx
                            (st_qvy r) (st_qvz r) (ps_current st))
          (ps_energy st + st_energy r)).

(** Lines 47-190. *)
Definition push_loop (fuel : nat) (spec : t_species) (emf : t_emf)
    (current : t_current) : outcome push_state :=
  while_loop (fun st => (ps_i st <? np spec)%Z)
             (push_body (tem_of spec) (dt_dx_of spec) (qnx_of spec) (q spec) emf)
             fuel (mk_push_state 0 (part spec) current 0).

(** One iteration, seen from the particle it reads. *)
Definition step_of (spec : t_species) (emf : t_emf) (p : t_part) : t_step :=
  advance_particle ltrim (tem_of spec) (dt_dx_of spec) (q spec) p
                   (interpolate_fld emf p).1 (interpolate_fld emf p).2.

Definition deposit_of (spec : t_species) (emf : t_emf) (J : t_current)
    (p : t_part) : t_current :=
  let r := step_of spec emf p in
  dep_current_zamb (ix p) (st_di r) (x p) (st_dx r) (qnx_of spec)
                   (st_qvy r) (st_qvz r) J.

(** The state of the main loop after [k] iterations. *)
Definition push_after (spec : t_species) (emf : t_emf) (current : t_current)
    (k : nat) : push_state :=
  mk_push_state (Z.of_nat k)
    (prefix_map (fun p => st_part (step_of spec emf p)) k (part spec))
    (fold_left (deposit_of spec emf) (take k (part spec)) current)
    (Rsum (map (fun p => st_energy (step_of spec emf p)) (take k (part spec)))).

(** Lines 200 and 204: the energy and the iteration counter are stored. *)
Definition store_energy (spec : t_species) (st : push_state) : t_species :=
  set_energy (q spec * m_q spec * ps_energy st * dx spec)
             (set_part (ps_part st) spec).

Definition next_iter (spec : t_species) : t_species :=
  set_iter (int_add (iter spec) 1) spec.

(** Lines 217-224: the absorbing compaction.  The state is the scan position
    [i] and the species, whose [np] shrinks. *)
Definition out_of_box (nx0 : Z) (p : t_part) : bool :=
  ((ix p <? 0) || (ix p >=? nx0))%Z.

Definition absorb_cond (st : Z * t_species) : bool :=
  (st.1 <? np st.2)%Z.

Definition absorb_body (nx0 : Z) (st : Z * t_species) : outcome (Z * t_species) :=
  let i := st.1 in
  let spec := st.2 in
  p ← read_part (part spec) i;
  if out_of_box nx0 p then
    let np' := int_sub (np spec) 1 in
    pl ← read_part (part spec) np';
    l' ← write_part (part spec) i pl;
    Done (i, set_part l' (set_np np' spec))
  else Done (int_add i 1, spec).

Definition absorb_scan (fuel : nat) (nx0 : Z) (spec : t_species) : outcome t_species :=
  st ← while_loop absorb_cond (absorb_body nx0) fuel (0%Z, spec);
  Done st.2.

(** Lines 230-233: the periodic wrap. *)
Definition wrap_ix (nx0 : Z) (p : t_part) : t_part :=
  mk_part (int_add (ix p)
             (int_sub (if (ix p <? 0)%Z then nx0 else 0%Z)
                      (if (ix p >=? nx0)%Z then nx0 else 0%Z)))
          (x p) (ux p) (uy p) (uz p).

Definition periodic_body (nx0 : Z) (st : Z * list t_part) : outcome (Z * list t_part) :=
  let i := st.1 in
  p ← read_part st.2 i;
  l' ← write_part st.2 i (wrap_ix nx0 p);
  Done (int_add i 1, l').

Definition periodic_wrap (fuel : nat) (nx0 : Z) (spec : t_species) : outcome t_species :=
  st ← while_loop (fun st => (st.1 <? np spec)%Z) (periodic_body nx0) fuel
                   (0%Z, part spec);
  Done (set_part st.2 spec).

(** Lines 208-234. *)
Definition boundary (fuel : nat) (nx0 : Z) (spec : t_species) : outcome t_species :=
  if negb (moving_window spec =? 0)%Z || (bc_type spec =? PART_BC_OPEN)%Z then
    let spec := if negb (moving_window spec =? 0)%Z
                then spec_move_window spec else spec in
    absorb_scan fuel nx0 spec
  else periodic_wrap fuel nx0 spec.

(** Lines 238-240. *)
Definition maybe_sort (spec : t_species) : t_species :=
  if (0 <? n_sort spec)%Z then
    if (Z.rem (iter spec) (n_sort spec) =? 0)%Z then spec_sort spec else spec
  else spec.

(** The whole function.  The timer and the diagnostic counters
    [_spec_npush], [_spec_time] (lines 19, 244, 245) are left out. *)
Definition spec_advance (fuel : nat) (spec : t_species) (emf : t_emf)
    (current : t_current) : outcome (t_species * t_current) :=
  let nx0 := nx spec in
  st ← push_loop fuel spec emf current;
  let spec := next_iter (store_energy spec st) in
  spec ← boundary fuel nx0 spec;
  Done (maybe_sort spec, ps_current st).

End Advance.

Arguments mk_push_state {t_current}.
Arguments ps_i {t_current}.
Arguments ps_part {t_current}.
Arguments ps_current {t_current}.
Arguments ps_energy {t_current}.
Arguments push_body {t_emf t_current}.
Arguments push_loop {t_emf t_current}.
Arguments step_of {t_emf}.
Arguments deposit_of {t_emf t_current}.
Arguments push_after {t_emf t_current}.
Arguments store_energy {t_current}.
Arguments spec_advance {t_emf t_current}.

(** ** The current deposit [dep_current_zamb]

    The function is called at line 180 but defined outside the translation
    unit; lines 167-172 list its writes for a virtual particle [vp[k]]. *)

Module Zamb.
Section Deposit.
Local Open Scope R_scope.

(** Modelled from the spec: the in-cell offset at which a trajectory leaving
    its cell by [di] meets the cell boundary.  The specification fixes the
    canonical offset range only by example, so the position of the boundary
    is left open. *)
Variable cell_edge : Z -> float.

(** A sub-segment of a trajectory, confined to one cell: the fields of
    [vp[k]] read at lines 168-172, and the two end offsets. *)
Record t_vp : Type := mk_vp {
  vp_ix : Z;
  vp_x0 : float;
  vp_x1 : float;
  vp_dx : float;
  vp_qvy : float;
  vp_qvz : float
}.

(** Modelled from the spec: the split of section 4.3, absent from the source.
    Without a crossing the trajectory is one segment with the displacement
    [dx]; with a crossing it is cut at the cell boundary into a segment of
    the home cell [ix0] and a segment of the cell [ix0 + di], each with its
    own local displacement (end offset minus start offset). *)
Definition split_trajectory (ix0 di : Z) (x0 dx qvy qvz : float) : list t_vp :=
  if (di =? 0)%Z then [mk_vp ix0 x0 (x0 + dx) dx qvy qvz]
  else
    let xb := cell_edge di in
    let x1 := x0 + dx - IZR di in
    [mk_vp ix0 x0 xb (xb - x0) qvy qvz;
     mk_vp (int_add ix0 di) (xb - IZR di) x1 (x1 - (xb - IZR di)) qvy qvz].

(** The current grid: an array of three-component accumulators. *)
Definition add_at (upd : float3 -> float3) (J : list float3) (i : Z)
    : outcome (list float3) :=
  if (i <? 0)%Z then Fault
  else match J !! Z.to_nat i with
       | Some v => Done (<[Z.to_nat i := upd v]> J)
       | None => Fault
       end.

Definition add_x (d : float) (v : float3) := mk_float3 (fx v + d) (fy v) (fz v).
Definition add_y (d : float) (v : float3) := mk_float3 (fx v) (fy v + d) (fz v).
Definition add_z (d : float) (v : float3) := mk_float3 (fx v) (fy v) (fz v + d).

(** Modelled from the spec: the single-cell deposit of section 4.3, with the
    write pattern of lines 168-172.  The longitudinal term [qnx * dx] goes to
    the home cell; the transverse terms are shared between the home cell and
    its forward neighbour, weighted by the average in-cell offset. *)
Definition dep_segment (qnx : float) (vp : t_vp) (J : list float3)
    : outcome (list float3) :=
  let w := (vp_x0 vp + vp_x1 vp) / 2 in
  J ← add_at (add_x (qnx * vp_dx vp)) J (vp_ix vp);
  J ← add_at (add_y (vp_qvy vp * (1 - w))) J (vp_ix vp);
  J ← add_at (add_y (vp_qvy vp * w)) J (int_add (vp_ix vp) 1);
  J ← add_at (add_z (vp_qvz vp * (1 - w))) J (vp_ix vp);
  add_at (add_z (vp_qvz vp * w)) J (int_add (vp_ix vp) 1).

Fixpoint dep_segments (qnx : float) (vps : list t_vp) (J : list float3)
    : outcome (list float3) :=
  match vps with
  | [] => Done J
  | vp :: vps => J ← dep_segment qnx vp J; dep_segments qnx vps J
  end.

(** Modelled from the spec: [dep_current_zamb] itself, absent from the source:
    split, then deposit every sub-segment in turn. *)
Definition dep_current_zamb (ix0 di : Z) (x0 dx qnx qvy qvz : float)
    (J : list float3) : outcome (list float3) :=
  dep_segments qnx (split_trajectory ix0 di x0 dx qvy qvz) J.

(** The longitudinal contributions a list of sub-segments writes, and the
    longitudinal current held by a grid. *)
Definition longitudinal (qnx : float) (vps : list t_vp) : list float :=
  map (fun vp => qnx * vp_dx vp) vps.

Definition total_jx (J : list float3) : float := Rsum (map fx J).

End Deposit.
End Zamb.

(** ** The float expressions in binary32

    The pusher computes in C [float].  Module [F32] evaluates the expressions
    of lines 73-90, 100, 131, 132, 145 and 146 in IEEE 754 binary32 (24 bits
    of precision, round to nearest even, infinities and NaN), for the
    statements on signs, bounds and definedness, which exact arithmetic does
    not settle. *)

Module F32.

Definition prec : Z := 24.
Definition emax : Z := 128.

Definition add : spec_float -> spec_float -> spec_float := SFadd prec emax.
Definition mul : spec_float -> spec_float -> spec_float := SFmul prec emax.
Definition div : spec_float -> spec_float -> spec_float := SFdiv prec emax.
Definition sqrt : spec_float -> spec_float := SFsqrt prec emax.

(** The binary32 value nearest to [n * 2 ^ e]; [of_Z n 0] is the conversion
    of the integer [n]. *)
Definition of_Z (n e : Z) : spec_float := binary_normalize prec emax n e false.

Definition one : spec_float := of_Z 1 0.
Definition zero : spec_float := S754_zero false.

Record vec : Type := mk_vec { vx : spec_float; vy : spec_float; vz : spec_float }.

(** Lines 73-79. *)
Definition scale (v : vec) (k : spec_float) : vec :=
  mk_vec (mul (vx v) k) (mul (vy v) k) (mul (vz v) k).

Definition half_accel (u E : vec) : vec :=
  mk_vec (add (vx u) (vx E)) (add (vy u) (vy E)) (add (vz u) (vz E)).

(** Lines 83, 84 and 90. *)
Definition u2_of (ut : vec) : spec_float :=
  add (add (mul (vx ut) (vx ut)) (mul (vy ut) (vy ut))) (mul (vz ut) (vz ut)).

Definition gamma_of (ut : vec) : spec_float := sqrt (add one (u2_of ut)).

Definition kin_term (ut : vec) : spec_float :=
  div (u2_of ut) (add one (gamma_of ut)).

Definition push_energy (tem : spec_float) (u Ep : vec) : spec_float :=
  kin_term (half_accel u (scale Ep tem)).

(** The divisor of line 100 and the argument of the square root of line 131:
    [1.0f + x*x + y*y + z*z]. *)
Definition one_plus_sq (v : vec) : spec_float :=
  add (add (add one (mul (vx v) (vx v))) (mul (vy v) (vy v)))
      (mul (vz v) (vz v)).

(** Lines 131, 132, 145 and 146, for the pushed momentum [u]. *)
Definition rg_of (u : vec) : spec_float := div one (sqrt (one_plus_sq u)).

Definition dx_of (dt_dx : spec_float) (u : vec) : spec_float :=
  mul (mul dt_dx (rg_of u)) (vx u).

Definition qvy_of (qs : spec_float) (u : vec) : spec_float :=
  mul (mul qs (vy u)) (rg_of u).

Definition qvz_of (qs : spec_float) (u : vec) : spec_float :=
  mul (mul qs (vz u)) (rg_of u).





End F32.

(** ** Vocabulary of the statements *)

Definition zero3 : float3 := mk_float3 0 0 0.

(** Euclidean norm of a momentum. *)
Definition norm3 (v : float3) : float :=
  sqrt (fx v * fx v + fy v * fy v + fz v * fz v).

(** Scalar product and opposite of a vector. *)
Definition dot3 (a b : float3) : float :=
  (fx a * fx b + fy a * fy b + fz a * fz b)%R.

Definition neg3 (v : float3) : float3 :=
  mk_float3 (- fx v)%R (- fy v)%R (- fz v)%R.

(** The cell index lies in [0, nx). *)
Definition inside (nx0 : Z) (p : t_part) : bool :=
  (0 <=? ix p) && (ix p <? nx0).

(** The live particles of a species: the first [np] slots of the buffer. *)
Definition live (spec : t_species) : list t_part :=
  take (Z.to_nat (np spec)) (part spec).

(** The buffer holds the live particles, and [np] is a value of type [int]. *)
Definition wf_species (spec : t_species) : Prop :=
  0 <= np spec <= int_max /\ np spec <= Z.of_nat (length (part spec)).

(** Invariant and variant of the absorbing compaction started on [spec0]:
    the scanned slots are inside the box, the live particles inside the box
    are those of [spec0] up to order, and only [part] and [np] have changed. *)
Definition absorb_inv (nx0 : Z) (spec0 : t_species) (st : Z * t_species) : Prop :=
  0 <= fst st <= np (snd st) /\
  np (snd st) <= np spec0 /\
  length (part (snd st)) = length (part spec0) /\
  (exists l n, snd st = set_part l (set_np n spec0)) /\
  Forall (fun p => inside nx0 p = true) (take (Z.to_nat (fst st)) (part (snd st))) /\
  List.filter (inside nx0) (live (snd st)) ≡ₚ List.filter (inside nx0) (live spec0).

Definition absorb_measure (st : Z * t_species) : nat :=
  Z.to_nat (np (snd st) - (fst st)).

(** ** Concrete inputs used to exercise the statements *)

Module Ex.
Local Open Scope R_scope.

(** A particle at rest in cell [i]. *)
Definition at_rest (i : Z) : t_part := mk_part i 0 0 0 0.

(** Four live particles with the cell indices -1, 2, 10, 5 and one dead
    slot, on a grid of 10 cells. *)
Definition species (mw bc : Z) : t_species :=
  mk_species [at_rest (-1); at_rest 2; at_rest 10; at_rest 5; at_rest 7]
             4 1 1 2 1 10 0 0 mw bc 0.

(** A particle of cell 2 with the momentum (1, 1, 1). *)
Definition mover : t_part := mk_part 2 0 1 1 1.

(** Two live particles and no dead slot, with the parameters of [species]. *)
Definition pair (a b : t_part) (bc : Z) : t_species :=
  mk_species [a; b] 2 1 1 2 1 10 0 0 0 bc 0.

(** Boundary kinds: 1 for periodic, 2 for open. *)
Definition bc_periodic : Z := 1.
Definition bc_open : Z := 2.

(** Collaborators that do nothing. *)
Definition no_field (_ : unit) (_ : t_part) : float3 * float3 := (zero3, zero3).
Definition no_trim (_ : float) : Z := 0%Z.
Definition no_deposit (_ _ : Z) (_ _ _ _ _ : float) (J : unit) : unit := J.
Definition no_shift (s : t_species) : t_species := s.


(** Offsets in [0, 1): a particle leaving to the right meets the boundary at
    offset 1, a particle leaving to the left at offset 0. *)
Definition edge (di : Z) : float := if (di =? 1)%Z then 1 else 0.

End Ex.

(** * Properties *)

(** ** Machine integers *)

Lemma int_wrap_id (z : Z) : int_range z -> int_wrap z = z.
Proof.
  unfold int_range, int_min, int_max, int_wrap. intros Hz.
  rewrite Z.mod_small; lia.
Qed.

Lemma int_wrap_range (z : Z) : int_range (int_wrap z).
Proof.
  unfold int_range, int_min, int_max, int_wrap.
  pose proof (Z.mod_pos_bound (z + 2 ^ 31) (2 ^ 32)). lia.
Qed.

Lemma int_add_id (a b : Z) : int_range (a + b) -> int_add a b = a + b.
Proof. apply int_wrap_id. Qed.

Lemma int_sub_id (a b : Z) : int_range (a - b) -> int_sub a b = a - b.
Proof. apply int_wrap_id. Qed.

(** ** The momentum pusher *)

Section PusherFacts.
Local Open Scope R_scope.

Lemma half_lit : 0.5 = 1 / 2.
Proof. lra. Qed.

Lemma u2_nonneg (v : float3) : 0 <= u2_of v.
Proof. unfold u2_of. nra. Qed.

Lemma gamma_ge_1 (v : float3) : 1 <= gamma_of v.
Proof.
  unfold gamma_of. rewrite <- sqrt_1 at 1.
  apply sqrt_le_1_alt. pose proof (u2_nonneg v). lra.
Qed.

Lemma otsq_den_ge_1 (B : float3) :
  1 <= 1 + fx B * fx B + fy B * fy B + fz B * fz B.
Proof. nra. Qed.

(** The rotation of lines 100-114 keeps [u2], whatever the scaled field. *)
Lemma rotation_u2 (ut B : float3) :
  u2_of (rot_second ut (rot_first ut B) (scale3 B (otsq_of B))) = u2_of ut.
Proof.
  destruct ut as [a b c], B as [bx by_ bz].
  unfold u2_of, rot_second, rot_first, scale3, otsq_of; simpl.
  field. nra.
Qed.

Lemma half_accel_zero (tem : float) (u : float3) :
  half_accel u (scale3 zero3 tem) = u.
Proof.
  destruct u as [a b c]. unfold half_accel, scale3, zero3; simpl.
  f_equal; ring.
Qed.

Lemma boris_push_no_E_u2 (tem : float) (u B : float3) :
  u2_of (boris_push tem u zero3 B) = u2_of u.
Proof.
  unfold boris_push. rewrite !half_accel_zero. apply rotation_u2.
Qed.


End PusherFacts.

Section PusherClaims.
Local Open Scope R_scope.

Variable ltrim : float -> Z.

(** C2. With a zero electric sample and any magnetic sample, the momentum
    stored back by one push has the Euclidean norm of the momentum read: the
    two-cross-product rotation is norm-preserving over the reals. *)
Theorem magnetic_rotation_preserves_norm
    (tem dt_dx qs : float) (p : t_part) (Bp : float3) :
  norm3 (momentum (st_part (advance_particle ltrim tem dt_dx qs p zero3 Bp)))
  = norm3 (momentum p).
Proof.
  unfold advance_particle, norm3, momentum; simpl.
  f_equal.
  pose proof (boris_push_no_E_u2 tem (mk_float3 (ux p) (uy p) (uz p)) Bp) as H.
  unfold u2_of in H; simpl in H. exact H.
Qed.


(** Over the reals, for every momentum and field sample: [u2 >= 0], the
    argument of the square root is at least 1, [gamma >= 1] (the divisor of
    line 94), the divisor [1 + gamma] is at least 2, the divisor of line 100
    is at least 1 for any magnetic sample, and the energy term of line 90 is
    non-negative. *)
Theorem energy_term_well_defined (tem : float) (u Ep Bp : float3) :
  let ut := half_accel u (scale3 Ep tem) in
  let Bp := scale3 Bp (tem / gamma_of ut) in
  0 <= u2_of ut /\
  1 <= 1 + u2_of ut /\
  1 <= gamma_of ut /\
  2 <= 1 + gamma_of ut /\
  1 <= 1 + fx Bp * fx Bp + fy Bp * fy Bp + fz Bp * fz Bp /\
  push_energy tem u Ep = u2_of ut / (1 + gamma_of ut) /\
  0 <= push_energy tem u Ep.
Proof.
  intros ut Bp'.
  pose proof (u2_nonneg ut) as Hu.
  pose proof (gamma_ge_1 ut) as Hg.
  repeat split; try lra.
  - apply otsq_den_ge_1.
  - unfold push_energy, kin_term. fold ut.
    apply Rmult_le_pos; [exact Hu |].
    apply Rlt_le, Rinv_0_lt_compat. lra.
Qed.

(** C6 (as amended). The half-step coefficient is half the time step divided
    by [m_q]; it is [0.5 * dt * r] for the ratio [r] inverse to [m_q], so
    [m_q] acts as the mass-to-charge ratio. *)
Theorem tem_is_half_dt_over_m_q (spec : t_species) (r : float) :
  r * m_q spec = 1 ->
  tem_of spec = 0.5 * dt spec / m_q spec /\
  tem_of spec = 0.5 * dt spec * r.
Proof.
  intros Hr. split; [reflexivity |].
  unfold tem_of. rewrite half_lit.
  assert (m_q spec <> 0) by (intros E; rewrite E in Hr; lra).
  assert (r = / m_q spec) as ->.
  { apply (Rmult_eq_reg_r (m_q spec)); [| assumption].
    rewrite Hr. field. assumption. }
  field. assumption.
Qed.

End PusherClaims.

(** ** Loops *)

(** Total-correctness rule for [while_loop]: an invariant kept by the body
    and a measure the body decreases give a result within [m s] iterations,
    and the result satisfies the invariant and fails the loop test. *)
Lemma while_loop_total {S : Type} (cond : S -> bool) (body : S -> outcome S)
    (Inv : S -> Prop) (m : S -> nat) :
  (forall s, Inv s -> cond s = true ->
     exists s', body s = Done s' /\ Inv s' /\ (m s' < m s)%nat) ->
  forall fuel s, Inv s -> (m s <= fuel)%nat ->
  exists s', while_loop cond body fuel s = Done s' /\ Inv s' /\ cond s' = false.
Proof.
  intros Hstep fuel. induction fuel as [| fuel IH]; intros s Hs Hm.
  - simpl. destruct (cond s) eqn:Hc.
    + destruct (Hstep s Hs Hc) as (s' & _ & _ & Hlt). lia.
    + exists s. auto.
  - simpl. destruct (cond s) eqn:Hc.
    + destruct (Hstep s Hs Hc) as (s' & Hb & Hs' & Hlt).
      rewrite Hb. simpl. apply IH; [exact Hs' | lia].
    + exists s. auto.
Qed.

(** Reading and writing a slot that exists. *)
Lemma read_part_Some (l : list t_part) (i : Z) (p : t_part) :
  0 <= i -> l !! Z.to_nat i = Some p -> read_part l i = Done p.
Proof.
  intros Hi Hl. unfold read_part.
  destruct (Z.ltb_spec i 0); [lia |]. rewrite Hl. reflexivity.
Qed.

Lemma write_part_Some (l : list t_part) (i : Z) (p p' : t_part) :
  0 <= i -> l !! Z.to_nat i = Some p ->
  write_part l i p' = Done (<[Z.to_nat i := p']> l).
Proof.
  intros Hi Hl. unfold write_part.
  destruct (Z.ltb_spec i 0); [lia |]. rewrite Hl. reflexivity.
Qed.

Lemma prefix_map_lookup f k l : prefix_map f k l !! k = l !! k.
Proof.
  unfold prefix_map.
  destruct (decide (k < length l)%nat) as [Hk | Hk].
  - rewrite lookup_app_r; rewrite length_map, length_take_le by lia; [| lia].
    rewrite lookup_drop. f_equal. lia.
  - rewrite drop_ge, app_nil_r by lia.
    rewrite (lookup_ge_None_2 l k) by lia.
    apply lookup_ge_None_2. rewrite length_map, length_take. lia.
Qed.

Lemma prefix_map_step f k l p :
  l !! k = Some p ->
  <[k := f p]> (prefix_map f k l) = prefix_map f (S k) l.
Proof.
  intros Hl. unfold prefix_map.
  assert (k < length l)%nat as Hk by (eapply lookup_lt_Some; eauto).
  rewrite (take_S_r l k p Hl), map_app, <- app_assoc. simpl.
  rewrite (drop_S l p k Hl).
  replace k with (length (map f (take k l)) + 0)%nat at 1
    by (rewrite length_map, length_take_le; lia).
  rewrite insert_app_r. reflexivity.
Qed.

Lemma Rsum_snoc (l : list float) (e : float) :
  Rsum (l ++ [e]) = (Rsum l + e)%R.
Proof.
  unfold Rsum. induction l as [| a l IH]; simpl.
  - ring.
  - rewrite IH. ring.
Qed.

(** ** The main loop and the energy reduction *)

Section AdvanceFacts.
Local Open Scope R_scope.

Variable t_emf : Type.
Variable t_current : Type.
Variable interpolate_fld : t_emf -> t_part -> float3 * float3.
Variable ltrim : float -> Z.
Variable dep_current_zamb :
  Z -> Z -> float -> float -> float -> float -> float -> t_current -> t_current.
Variable spec_move_window : t_species -> t_species.
Variable spec_sort : t_species -> t_species.
Variable PART_BC_OPEN : Z.

Lemma push_body_after spec emf current k :
  wf_species spec -> (Z.of_nat k < np spec)%Z ->
  push_body interpolate_fld ltrim dep_current_zamb
            (tem_of spec) (dt_dx_of spec) (qnx_of spec) (q spec) emf
            (push_after interpolate_fld ltrim dep_current_zamb spec emf current k)
  = Done (push_after interpolate_fld ltrim dep_current_zamb spec emf current (S k)).
Proof.
  intros [[_ Hmax] Hlen] Hk.
  assert (k < length (part spec))%nat as Hkl by lia.
  destruct (lookup_lt_is_Some_2 _ _ Hkl) as [p Hp].
  unfold push_body. unfold push_after; cbn [ps_i ps_part ps_current ps_energy].
  rewrite (read_part_Some _ _ p); [| lia |].
  2:{ rewrite Nat2Z.id, prefix_map_lookup. exact Hp. }
  cbn [mbind outcome_bind].
  rewrite (write_part_Some _ _ p); [| lia |].
  2:{ rewrite Nat2Z.id, prefix_map_lookup. exact Hp. }
  cbn [mbind outcome_bind]. f_equal.
  unfold push_after. rewrite Nat2Z.id.
  fold (step_of interpolate_fld ltrim spec emf p).
  pose proof (prefix_map_step
                (fun p0 => st_part (step_of interpolate_fld ltrim spec emf p0))
                _ _ _ Hp) as Hs.
  cbv beta in Hs. rewrite Hs. clear Hs.
  rewrite (take_S_r _ _ _ Hp), fold_left_app, map_app.
  cbn [map fold_left]. rewrite Rsum_snoc.
  rewrite int_add_id.
  2:{ unfold int_range, int_min, int_max in *. lia. }
  f_equal. lia.
Qed.

(** The main loop runs to completion within [np] iterations and leaves every
    live slot advanced, the deposits applied in slot order and the energy
    terms summed. *)
Lemma push_loop_spec spec emf current fuel :
  wf_species spec -> (Z.to_nat (np spec) <= fuel)%nat ->
  push_loop interpolate_fld ltrim dep_current_zamb
            fuel spec emf current
  = Done (push_after interpolate_fld ltrim dep_current_zamb spec emf current (Z.to_nat (np spec))).
Proof.
  intros Hwf Hfuel. unfold push_loop.
  pose (Inv := fun st : push_state t_current =>
          exists k, (Z.of_nat k <= np spec)%Z /\ st = push_after interpolate_fld ltrim dep_current_zamb spec emf current k).
  pose (m := fun st : push_state t_current => Z.to_nat (np spec - ps_i st)).
  destruct (while_loop_total
              (fun st : push_state t_current => (ps_i st <? np spec)%Z)
              (push_body interpolate_fld ltrim dep_current_zamb
                 (tem_of spec) (dt_dx_of spec) (qnx_of spec) (q spec) emf)
              Inv m) with (fuel := fuel)
        (s := mk_push_state 0%Z (part spec) current 0)
    as (st & Hrun & (k & Hk & ->) & Hc).
  - intros st (k & Hk & ->) Hc. apply Z.ltb_lt in Hc. simpl in Hc.
    exists (push_after interpolate_fld ltrim dep_current_zamb spec emf current (S k)). split; [| split].
    + apply push_body_after; [exact Hwf | lia].
    + exists (S k). split; [lia | reflexivity].
    + unfold m. simpl ps_i. lia.
  - exists 0%nat. split; [destruct Hwf; lia |].
    unfold push_after, prefix_map. simpl. rewrite drop_0. reflexivity.
  - unfold m. simpl. lia.
  - rewrite Hrun. f_equal. apply Z.ltb_ge in Hc. simpl in Hc.
    f_equal. lia.
Qed.

(** The whole function, once the main loop is known to complete: the energy
    and the iteration counter are stored, the boundary pass runs with the
    cell count read at line 27, and the species is sorted when due. *)
Lemma spec_advance_stages spec emf current fuel :
  wf_species spec -> (Z.to_nat (np spec) <= fuel)%nat ->
  let st := push_after interpolate_fld ltrim dep_current_zamb spec emf current
                       (Z.to_nat (np spec)) in
  spec_advance interpolate_fld ltrim dep_current_zamb spec_move_window
               spec_sort PART_BC_OPEN fuel spec emf current
  = (spec' ← boundary spec_move_window PART_BC_OPEN fuel (nx spec)
                (next_iter (store_energy spec st));
     Done (maybe_sort spec_sort spec', ps_current st)).
Proof.
  intros Hwf Hfuel st. unfold spec_advance.
  rewrite (push_loop_spec spec emf current fuel Hwf Hfuel). reflexivity.
Qed.

(** C7 (as amended). After the main loop the stored energy is
    [q * m_q * S * dx], where [S] is the sum over the live particles of the
    terms [u2 / (1 + gamma)], with [u2] the squared norm of the
    half-accelerated momentum and [gamma = sqrt (1 + u2)], and where [m_q] is
    the parameter line 22 divides by: the mass-to-charge ratio. *)
Theorem stored_energy_is_scaled_sum spec emf current fuel :
  wf_species spec -> (Z.to_nat (np spec) <= fuel)%nat ->
  exists st,
    push_loop interpolate_fld ltrim dep_current_zamb
              fuel spec emf current = Done st /\
    energy (next_iter (store_energy spec st))
    = q spec * m_q spec
      * foldr Rplus 0
          (map (fun p =>
                  let tem := 0.5 * dt spec / m_q spec in
                  let utx := ux p + fx (interpolate_fld emf p).1 * tem in
                  let uty := uy p + fy (interpolate_fld emf p).1 * tem in
                  let utz := uz p + fz (interpolate_fld emf p).1 * tem in
                  let u2 := utx * utx + uty * uty + utz * utz in
                  u2 / (1 + sqrt (1 + u2)))
               (take (Z.to_nat (np spec)) (part spec)))
      * dx spec.
Proof.
  intros Hwf Hfuel. eexists. split.
  - apply push_loop_spec; assumption.
  - reflexivity.
Qed.

End AdvanceFacts.

(** ** The boundary pass *)

Lemma out_of_box_inside (nx0 : Z) (p : t_part) :
  out_of_box nx0 p = negb (inside nx0 p).
Proof.
  unfold out_of_box, inside.
  destruct (Z.ltb_spec (ix p) 0), (Z.leb_spec 0 (ix p)),
    (Z.geb_spec (ix p) nx0), (Z.ltb_spec (ix p) nx0); simpl; lia.
Qed.

Lemma inside_spec (nx0 : Z) (p : t_part) :
  inside nx0 p = true <-> 0 <= ix p < nx0.
Proof. unfold inside. rewrite andb_true_iff, Z.leb_le, Z.ltb_lt. tauto. Qed.

Lemma filter_perm (f : t_part -> bool) (l l' : list t_part) :
  l ≡ₚ l' -> List.filter f l ≡ₚ List.filter f l'.
Proof.
  induction 1 as [| a l l' _ IH | a b l | l l' l'' _ IH1 _ IH2]; simpl.
  - reflexivity.
  - destruct (f a); [constructor |]; exact IH.
  - destruct (f a), (f b); try reflexivity. apply perm_swap.
  - etransitivity; eassumption.
Qed.

Lemma filter_all (f : t_part -> bool) (l : list t_part) :
  Forall (fun p => f p = true) l -> List.filter f l = l.
Proof.
  induction 1 as [| a l Ha _ IH]; simpl; [reflexivity |].
  rewrite Ha, IH. reflexivity.
Qed.

Lemma filter_split_length (f : t_part -> bool) (l : list t_part) :
  (length (List.filter f l) + length (List.filter (fun p => negb (f p)) l)
   = length l)%nat.
Proof.
  induction l as [| a l IH]; simpl; [reflexivity |].
  destruct (f a); simpl; lia.
Qed.

(** Overwriting slot [i] with the last element and dropping the last slot
    removes exactly the old content of slot [i]. *)
Lemma swap_remove_perm (L : list t_part) (i n : nat) (p pl : t_part) :
  length L = S n -> L !! i = Some p -> L !! n = Some pl ->
  p :: take n (<[i := pl]> L) ≡ₚ L.
Proof.
  intros Hlen Hi Hn.
  assert (i < S n)%nat as Hlt by (rewrite <- Hlen; eapply lookup_lt_Some; eauto).
  assert (L = take n L ++ [pl]) as HL.
  { rewrite <- (take_S_r _ _ _ Hn). symmetry. apply take_ge. lia. }
  destruct (decide (i = n)) as [-> | Hne].
  - rewrite take_insert_ge by lia.
    assert (p = pl) as -> by congruence.
    rewrite HL at 2. apply Permutation_cons_append.
  - assert (i < n)%nat as Hin by lia.
    rewrite take_insert_lt by lia.
    assert (take n L !! i = Some p) as HM by (rewrite lookup_take_lt; auto).
    rewrite insert_take_drop by (rewrite length_take; lia).
    rewrite HL at 3.
    rewrite <- (take_drop_middle _ _ _ HM) at 3.
    rewrite <- Permutation_cons_append, <- !Permutation_middle.
    apply perm_swap.
Qed.

Lemma absorb_body_step (nx0 : Z) (spec0 : t_species) (st : Z * t_species) :
  wf_species spec0 -> absorb_inv nx0 spec0 st -> absorb_cond st = true ->
  exists st', absorb_body nx0 st = Done st' /\ absorb_inv nx0 spec0 st' /\
              (absorb_measure st' < absorb_measure st)%nat.
Proof.
  intros [[_ Hmax] Hcap] (Hi & Hnp & Hlen & (l0 & n0 & Hs) & Hin & Hperm) Hc.
  destruct st as [i s]. unfold absorb_cond in Hc. simpl in *.
  apply Z.ltb_lt in Hc.
  assert (Z.to_nat i < length (part s))%nat as Hil by lia.
  destruct (lookup_lt_is_Some_2 _ _ Hil) as [p Hp].
  unfold absorb_body. cbn [fst snd]. rewrite (read_part_Some (part s) i p); [| lia | exact Hp].
  cbn [mbind outcome_bind].
  destruct (out_of_box nx0 p) eqn:Ho.
  - assert (int_sub (np s) 1 = np s - 1) as ->.
    { apply int_sub_id. unfold int_range, int_min, int_max in *. lia. }
    assert (Z.to_nat (np s - 1) < length (part s))%nat as Hnl by lia.
    destruct (lookup_lt_is_Some_2 _ _ Hnl) as [pl Hpl].
    rewrite (read_part_Some (part s) (np s - 1) pl); [| lia | exact Hpl]. cbn [mbind outcome_bind].
    rewrite (write_part_Some (part s) i p); [| lia | exact Hp]. cbn [mbind outcome_bind].
    eexists. split; [reflexivity |]. split.
    + unfold absorb_inv. simpl. repeat split; try lia.
      * rewrite length_insert. exact Hlen.
      * exists (<[Z.to_nat i := pl]> (part s)), (np s - 1). rewrite Hs. reflexivity.
      * rewrite take_insert_ge by lia. exact Hin.
      * rewrite <- Hperm. unfold live. simpl.
        set (n := Z.to_nat (np s - 1)).
        assert (Z.to_nat (np s) = S n) as -> by (unfold n; lia).
        assert (p :: take n (<[Z.to_nat i := pl]> (part s))
                ≡ₚ take (S n) (part s)) as Hsw.
        { pose proof (swap_remove_perm (take (S n) (part s)) (Z.to_nat i) n p pl)
            as Hsw.
          rewrite <- take_insert_lt, take_take, Nat.min_l in Hsw
            by (unfold n; lia).
          apply Hsw.
          - rewrite length_take_le; unfold n; lia.
          - rewrite lookup_take_lt by (unfold n; lia). exact Hp.
          - rewrite lookup_take_lt by lia. exact Hpl. }
        apply (filter_perm (inside nx0)) in Hsw. simpl in Hsw.
        rewrite out_of_box_inside in Ho.
        destruct (inside nx0 p); [discriminate | exact Hsw].
    + unfold absorb_measure. simpl. lia.
  - assert (int_add i 1 = i + 1) as ->.
    { apply int_add_id. unfold int_range, int_min, int_max in *. lia. }
    eexists. split; [reflexivity |]. split.
    + unfold absorb_inv. simpl. repeat split; try lia; try assumption.
      * exists l0, n0. exact Hs.
      * replace (Z.to_nat (i + 1)) with (S (Z.to_nat i)) by lia.
        rewrite (take_S_r _ _ _ Hp). apply Forall_app. split; [exact Hin |].
        constructor; [| constructor].
        rewrite out_of_box_inside in Ho.
        destruct (inside nx0 p); [reflexivity | discriminate].
    + unfold absorb_measure. simpl. lia.
Qed.

Lemma absorb_inv_init (nx0 : Z) (spec0 : t_species) :
  wf_species spec0 -> absorb_inv nx0 spec0 (0, spec0).
Proof.
  intros [[Hnp _] _]. unfold absorb_inv. simpl. repeat split; try lia.
  - exists (part spec0), (np spec0). destruct spec0; reflexivity.
  - constructor.
  - reflexivity.
Qed.

(** The compaction runs to completion within [np] iterations; only [part] and
    [np] change, the buffer keeps its size, the survivors are the live
    particles inside the box up to order, and [np] drops by the number of
    particles outside the box. *)
Lemma absorb_scan_spec (fuel : nat) (nx0 : Z) (spec0 : t_species) :
  wf_species spec0 -> (Z.to_nat (np spec0) <= fuel)%nat ->
  exists spec',
    absorb_scan fuel nx0 spec0 = Done spec' /\
    (exists l n, spec' = set_part l (set_np n spec0)) /\
    0 <= np spec' <= np spec0 /\
    length (part spec') = length (part spec0) /\
    Forall (fun p => 0 <= ix p < nx0) (live spec') /\
    live spec' ≡ₚ List.filter (inside nx0) (live spec0) /\
    np spec' = np spec0
               - Z.of_nat (length (List.filter (out_of_box nx0) (live spec0))).
Proof.
  intros Hwf Hfuel.
  destruct (while_loop_total absorb_cond (absorb_body nx0)
              (absorb_inv nx0 spec0) absorb_measure
              (fun st Hi Hc => absorb_body_step nx0 spec0 st Hwf Hi Hc)
              fuel (0, spec0) (absorb_inv_init nx0 spec0 Hwf))
    as ([i s] & Hrun & (Hi & Hnp & Hlen & Hs & Hin & Hperm) & Hc).
  { unfold absorb_measure. simpl. lia. }
  unfold absorb_cond in Hc. simpl in *. apply Z.ltb_ge in Hc.
  assert (i = np s) as -> by lia.
  exists s. unfold absorb_scan. rewrite Hrun. simpl.
  fold (live s) in Hin. rewrite (filter_all _ _ Hin) in Hperm.
  destruct Hwf as [[Hnp0 Hmax] Hcap].
  repeat split; try assumption; try lia.
  { eapply Forall_impl; [exact Hin |]. intros p. apply inside_spec. }
  apply Permutation_length in Hperm.
  pose proof (filter_split_length (inside nx0) (live spec0)) as Hsplit.
  rewrite (List.filter_ext (out_of_box nx0) (fun p => negb (inside nx0 p)))
    by apply out_of_box_inside.
  unfold live in Hperm at 1. unfold live in Hsplit at 3.
  rewrite length_take_le in Hperm, Hsplit by lia. lia.
Qed.

(** Every iteration of the compaction that starts inside the buffer ends
    normally, stays inside the buffer and shortens the distance between the
    scan position and the live count by one. *)
Lemma absorb_body_variant (nx0 : Z) (i : Z) (s : t_species) :
  0 <= i < np s -> np s <= int_max -> np s <= Z.of_nat (length (part s)) ->
  exists i' s',
    absorb_body nx0 (i, s) = Done (i', s') /\
    0 <= i' <= np s' /\ np s' <= np s /\
    length (part s') = length (part s) /\
    np s' - i' = np s - i - 1.
Proof.
  intros Hi Hmax Hcap.
  assert (Z.to_nat i < length (part s))%nat as Hil by lia.
  destruct (lookup_lt_is_Some_2 _ _ Hil) as [p Hp].
  unfold absorb_body. cbn [fst snd].
  rewrite (read_part_Some (part s) i p); [| lia | exact Hp].
  cbn [mbind outcome_bind].
  destruct (out_of_box nx0 p).
  - assert (int_sub (np s) 1 = np s - 1) as ->.
    { apply int_sub_id. unfold int_range, int_min, int_max in *. lia. }
    assert (Z.to_nat (np s - 1) < length (part s))%nat as Hnl by lia.
    destruct (lookup_lt_is_Some_2 _ _ Hnl) as [pl Hpl].
    rewrite (read_part_Some (part s) (np s - 1) pl); [| lia | exact Hpl].
    cbn [mbind outcome_bind].
    rewrite (write_part_Some (part s) i p); [| lia | exact Hp].
    cbn [mbind outcome_bind].
    do 2 eexists. split; [reflexivity |]. simpl.
    rewrite length_insert. lia.
  - assert (int_add i 1 = i + 1) as ->.
    { apply int_add_id. unfold int_range, int_min, int_max in *. lia. }
    do 2 eexists. split; [reflexivity |]. lia.
Qed.

(** The periodic wrap rewrites the cell index of every live slot. *)
Lemma periodic_wrap_spec (fuel : nat) (nx0 : Z) (spec : t_species) :
  wf_species spec -> (Z.to_nat (np spec) <= fuel)%nat ->
  periodic_wrap fuel nx0 spec
  = Done (set_part (prefix_map (wrap_ix nx0) (Z.to_nat (np spec)) (part spec))
                   spec).
Proof.
  intros [[Hnp Hmax] Hcap] Hfuel. unfold periodic_wrap.
  pose (Inv := fun st : Z * list t_part =>
          exists k, Z.of_nat k <= np spec /\
                    st = (Z.of_nat k, prefix_map (wrap_ix nx0) k (part spec))).
  pose (m := fun st : Z * list t_part => Z.to_nat (np spec - fst st)).
  destruct (while_loop_total
              (fun st : Z * list t_part => fst st <? np spec)
              (periodic_body nx0) Inv m) with (fuel := fuel)
        (s := (0, part spec))
    as (st & Hrun & (k & Hk & ->) & Hc).
  - intros st (k & Hk & ->) Hc. simpl in Hc. apply Z.ltb_lt in Hc.
    assert (k < length (part spec))%nat as Hkl by lia.
    destruct (lookup_lt_is_Some_2 _ _ Hkl) as [p Hp].
    exists (Z.of_nat (S k), prefix_map (wrap_ix nx0) (S k) (part spec)).
    split; [| split].
    + unfold periodic_body. cbn [fst snd].
      rewrite (read_part_Some _ (Z.of_nat k) p); [| lia |].
      2:{ rewrite Nat2Z.id, prefix_map_lookup. exact Hp. }
      cbn [mbind outcome_bind].
      rewrite (write_part_Some _ (Z.of_nat k) p); [| lia |].
      2:{ rewrite Nat2Z.id, prefix_map_lookup. exact Hp. }
      cbn [mbind outcome_bind].
      rewrite Nat2Z.id, (prefix_map_step _ _ _ _ Hp), int_add_id.
      2:{ unfold int_range, int_min, int_max in *. lia. }
      do 2 f_equal. lia.
    + exists (S k). split; [lia | reflexivity].
    + unfold m. simpl. lia.
  - exists 0%nat. split; [simpl; lia |].
    unfold prefix_map. simpl. rewrite drop_0. reflexivity.
  - unfold m. simpl. lia.
  - rewrite Hrun. simpl in Hc. apply Z.ltb_ge in Hc. simpl.
    do 3 f_equal. lia.
Qed.

Lemma wrap_ix_value (nx0 : Z) (p : t_part) :
  int_range (ix p) -> 0 <= nx0 <= int_max ->
  ix (wrap_ix nx0 p)
  = ix p + (if ix p <? 0 then nx0 else 0) - (if ix p >=? nx0 then nx0 else 0).
Proof.
  unfold int_range, int_min, int_max. intros Hp Hnx.
  unfold wrap_ix; simpl.
  destruct (Z.ltb_spec (ix p) 0), (Z.geb_spec (ix p) nx0); try lia;
    rewrite int_sub_id by (unfold int_range, int_min, int_max; lia);
    rewrite int_add_id by (unfold int_range, int_min, int_max; lia); lia.
Qed.

Lemma prefix_map_lookup_lt f k l j p :
  (j < k)%nat -> l !! j = Some p -> prefix_map f k l !! j = Some (f p).
Proof.
  intros Hj Hl. unfold prefix_map.
  apply lookup_app_l_Some.
  rewrite list_lookup_fmap, lookup_take_lt, Hl by lia. reflexivity.
Qed.

Lemma prefix_map_lookup_ge f k l j :
  (k <= j)%nat -> (k <= length l)%nat ->
  prefix_map f k l !! j = l !! j.
Proof.
  intros Hj Hk. unfold prefix_map.
  rewrite lookup_app_r; rewrite length_map, length_take_le by lia; [| lia].
  rewrite lookup_drop. f_equal. lia.
Qed.

Lemma prefix_map_length f k l : length (prefix_map f k l) = length l.
Proof.
  unfold prefix_map.
  rewrite length_app, length_map, length_take, length_drop. lia.
Qed.

Section BoundaryClaims.

Variable spec_move_window : t_species -> t_species.
Variable PART_BC_OPEN : Z.

(** C4. With open boundaries the survivors of the boundary scan are, up to
    order, the particles handed to the scan whose cell index lies in
    [0, nx), and the live count drops by the number of particles outside
    that range.  For the cell indices [-1, 2, nx, 5] with [nx = 10] the
    particles with the indices 2 and 5 survive and the count drops by 2. *)
Theorem absorbing_removal (fuel : nat) (nx0 : Z) (spec : t_species) :
  let input := if negb (moving_window spec =? 0)
               then spec_move_window spec else spec in
  bc_type spec = PART_BC_OPEN ->
  wf_species input -> (Z.to_nat (np input) <= fuel)%nat ->
  (exists spec',
     boundary spec_move_window PART_BC_OPEN fuel nx0 spec = Done spec' /\
     live spec' ≡ₚ List.filter (inside nx0) (live input) /\
     np spec' = np input
                - Z.of_nat (length (List.filter (out_of_box nx0) (live input)))) /\
  (forall p0 p1 p2 p3 : t_part,
     moving_window spec = 0 -> nx0 = 10 -> np spec = 4 ->
     take 4 (part spec) = [p0; p1; p2; p3] ->
     ix p0 = -1 -> ix p1 = 2 -> ix p2 = nx0 -> ix p3 = 5 ->
     exists spec',
       boundary spec_move_window PART_BC_OPEN fuel nx0 spec = Done spec' /\
       live spec' ≡ₚ [p1; p3] /\ np spec' = np spec - 2).
Proof.
  intros input Hbc Hwf Hfuel.
  assert (boundary spec_move_window PART_BC_OPEN fuel nx0 spec
          = absorb_scan fuel nx0 input) as Hb.
  { unfold boundary. rewrite Hbc, Z.eqb_refl, orb_true_r. reflexivity. }
  destruct (absorb_scan_spec fuel nx0 input Hwf Hfuel)
    as (spec' & Hrun & _ & _ & _ & _ & Hperm & Hcount).
  split.
  - exists spec'. rewrite Hb. auto.
  - intros p0 p1 p2 p3 Hmw Hnx Hnp Hlive H0 H1 H2 H3.
    exists spec'. rewrite Hb. split; [exact Hrun |].
    assert (input = spec) as Hin by (unfold input; rewrite Hmw; reflexivity).
    rewrite Hin in Hperm, Hcount.
    unfold live in Hperm at 2. unfold live in Hcount.
    rewrite Hnp in Hperm, Hcount. change (Z.to_nat 4) with 4%nat in *.
    rewrite Hlive in Hperm, Hcount.
    unfold inside in Hperm. unfold out_of_box in Hcount.
    simpl in Hperm, Hcount.
    rewrite H0, H1, H2, H3, Hnx in *. simpl in Hperm, Hcount.
    split; [exact Hperm | lia].
Qed.

(** C5. In periodic mode the boundary pass adds [nx] to every negative cell
    index of a live particle and subtracts [nx] from every cell index at or
    beyond [nx] (so -1 becomes [nx - 1] and [nx] becomes 0); it changes no
    other particle field, no slot beyond the live ones, and leaves the
    particle count and every other field of the species as they were. *)
Theorem periodic_wrap_maps_indices (fuel : nat) (nx0 : Z) (spec : t_species) :
  moving_window spec = 0 -> bc_type spec <> PART_BC_OPEN ->
  wf_species spec -> (Z.to_nat (np spec) <= fuel)%nat ->
  0 <= nx0 <= int_max ->
  exists spec',
    boundary spec_move_window PART_BC_OPEN fuel nx0 spec = Done spec' /\
    spec' = set_part (part spec') spec /\
    np spec' = np spec /\
    length (part spec') = length (part spec) /\
    forall (k : nat) (p : t_part), part spec !! k = Some p ->
      exists p', part spec' !! k = Some p' /\
        x p' = x p /\ ux p' = ux p /\ uy p' = uy p /\ uz p' = uz p /\
        (Z.of_nat k < np spec -> int_range (ix p) ->
           ix p' = ix p + (if ix p <? 0 then nx0 else 0)
                        - (if ix p >=? nx0 then nx0 else 0)) /\
        (Z.of_nat k < np spec -> ix p = -1 -> ix p' = nx0 - 1) /\
        (Z.of_nat k < np spec -> ix p = nx0 -> ix p' = 0) /\
        (np spec <= Z.of_nat k -> p' = p).
Proof.
  intros Hmw Hbc Hwf Hfuel Hnx.
  eexists. split.
  { unfold boundary. rewrite Hmw. simpl.
    destruct (Z.eqb_spec (bc_type spec) PART_BC_OPEN) as [E | _]; [tauto |].
    apply periodic_wrap_spec; assumption. }
  destruct Hwf as [[Hnp Hmax] Hcap].
  simpl. repeat split.
  - apply prefix_map_length.
  - intros k p Hp.
    destruct (decide (k < Z.to_nat (np spec))%nat) as [Hk | Hk].
    + exists (wrap_ix nx0 p).
      split; [apply prefix_map_lookup_lt; assumption |].
      repeat split.
      * intros _ Hr. apply wrap_ix_value; assumption.
      * intros _ E. rewrite wrap_ix_value; [| | assumption].
        -- rewrite E. simpl.
           destruct (Z.geb_spec (-1) nx0); lia.
        -- rewrite E. unfold int_range, int_min, int_max. lia.
      * intros _ E. rewrite wrap_ix_value; [| | assumption].
        -- rewrite E.
           destruct (Z.ltb_spec nx0 0), (Z.geb_spec nx0 nx0); lia.
        -- rewrite E. unfold int_range, int_min, int_max in *. lia.
      * intros Hge. lia.
    + exists p.
      split; [rewrite prefix_map_lookup_ge by lia; exact Hp |].
      repeat split; intros; lia.
Qed.

(** C9. With the moving-window flag set, whatever the boundary-condition
    kind, the boundary pass is the absorbing scan of the species returned by
    the window shift: the survivors are its live particles inside [0, nx),
    none of them re-indexed, and the live count drops by the number of
    particles outside. *)
Theorem moving_window_forces_absorbing (fuel : nat) (nx0 : Z) (spec : t_species) :
  moving_window spec <> 0 ->
  wf_species (spec_move_window spec) ->
  (Z.to_nat (np (spec_move_window spec)) <= fuel)%nat ->
  boundary spec_move_window PART_BC_OPEN fuel nx0 spec
  = absorb_scan fuel nx0 (spec_move_window spec) /\
  exists spec',
    boundary spec_move_window PART_BC_OPEN fuel nx0 spec = Done spec' /\
    Forall (fun p => 0 <= ix p < nx0) (live spec') /\
    live spec' ≡ₚ List.filter (inside nx0) (live (spec_move_window spec)) /\
    np spec' = np (spec_move_window spec)
               - Z.of_nat (length (List.filter (out_of_box nx0)
                                     (live (spec_move_window spec)))).
Proof.
  intros Hmw Hwf Hfuel.
  assert (boundary spec_move_window PART_BC_OPEN fuel nx0 spec
          = absorb_scan fuel nx0 (spec_move_window spec)) as Hb.
  { unfold boundary.
    destruct (Z.eqb_spec (moving_window spec) 0) as [E | _]; [tauto |].
    reflexivity. }
  split; [exact Hb |].
  destruct (absorb_scan_spec fuel nx0 _ Hwf Hfuel)
    as (spec' & Hrun & _ & _ & _ & Hin & Hperm & Hcount).
  exists spec'. rewrite Hb. auto.
Qed.

End BoundaryClaims.

(** C10. The absorbing compaction terminates for every particle count
    [np >= 0] held by the buffer and every assignment of cell indices: every
    iteration decreases [np - i] by one, [np] iterations are enough, and the
    final count lies between 0 and the initial one. *)
Theorem absorbing_scan_terminates (nx0 : Z) (spec : t_species) :
  wf_species spec ->
  (exists spec',
     absorb_scan (Z.to_nat (np spec)) nx0 spec = Done spec' /\
     0 <= np spec' <= np spec) /\
  (forall (i : Z) (s : t_species),
     0 <= i < np s -> np s <= int_max -> np s <= Z.of_nat (length (part s)) ->
     exists i' s',
       absorb_body nx0 (i, s) = Done (i', s') /\
       0 <= np s' - i' < np s - i).
Proof.
  intros Hwf. split.
  - destruct (absorb_scan_spec (Z.to_nat (np spec)) nx0 spec Hwf (le_n _))
      as (spec' & Hrun & _ & Hnp & _).
    exists spec'. auto.
  - intros i s Hi Hmax Hcap.
    destruct (absorb_body_variant nx0 i s Hi Hmax Hcap)
      as (i' & s' & Hb & Hi' & _ & _ & Hv).
    exists i', s'. split; [exact Hb | lia].
Qed.

(** ** The current deposit *)

Module ZambFacts.
Import Zamb.
Section Facts.
Local Open Scope R_scope.

Variable cell_edge : Z -> float.

Lemma total_jx_insert (J : list float3) (i : nat) (v v' : float3) :
  J !! i = Some v ->
  total_jx (<[i := v']> J) = total_jx J - fx v + fx v'.
Proof.
  revert i. unfold total_jx, Rsum.
  induction J as [| a J IH]; intros [| i] Hi; simpl in *; try discriminate.
  - injection Hi as ->. ring.
  - rewrite (IH i Hi). ring.
Qed.

(** A write to an existing cell ends normally and moves the longitudinal
    total by the change of the [x] component. *)
Lemma add_at_Done (upd : float3 -> float3) (J : list float3) (i : Z) :
  (0 <= i < Z.of_nat (length J))%Z ->
  exists v J', J !! Z.to_nat i = Some v /\
    add_at upd J i = Done J' /\ length J' = length J /\
    total_jx J' = total_jx J - fx v + fx (upd v).
Proof.
  intros Hi.
  assert (Z.to_nat i < length J)%nat as Hl by lia.
  destruct (lookup_lt_is_Some_2 _ _ Hl) as [v Hv].
  exists v, (<[Z.to_nat i := upd v]> J). unfold add_at.
  destruct (Z.ltb_spec i 0); [lia |]. rewrite Hv.
  split; [reflexivity |]. split; [reflexivity |].
  split; [apply length_insert |].
  apply total_jx_insert. exact Hv.
Qed.

Lemma add_at_total (upd : float3 -> float3) (J J' : list float3) (i : Z) (d : float) :
  (forall v, fx (upd v) = fx v + d) ->
  add_at upd J i = Done J' ->
  length J' = length J /\ total_jx J' = total_jx J + d.
Proof.
  intros Hupd. unfold add_at.
  destruct (Z.ltb_spec i 0); [discriminate |].
  destruct (J !! Z.to_nat i) as [v |] eqn:Hv; [| discriminate].
  intros [= <-]. split; [apply length_insert |].
  rewrite (total_jx_insert _ _ v _ Hv), Hupd. ring.
Qed.

Lemma dep_segment_total (qnx : float) (vp : t_vp) (J J' : list float3) :
  dep_segment qnx vp J = Done J' ->
  length J' = length J /\ total_jx J' = total_jx J + qnx * vp_dx vp.
Proof.
  unfold dep_segment.
  destruct (add_at _ J _) as [J1 | |] eqn:H1; try discriminate.
  cbn [mbind outcome_bind].
  destruct (add_at _ J1 _) as [J2 | |] eqn:H2; try discriminate.
  cbn [mbind outcome_bind].
  destruct (add_at _ J2 _) as [J3 | |] eqn:H3; try discriminate.
  cbn [mbind outcome_bind].
  destruct (add_at _ J3 _) as [J4 | |] eqn:H4; try discriminate.
  cbn [mbind outcome_bind]. intros H5.
  apply (add_at_total _ _ _ _ (qnx * vp_dx vp)) in H1; [| reflexivity].
  apply (add_at_total _ _ _ _ 0) in H2; [| intros; simpl; ring].
  apply (add_at_total _ _ _ _ 0) in H3; [| intros; simpl; ring].
  apply (add_at_total _ _ _ _ 0) in H4; [| intros; simpl; ring].
  apply (add_at_total _ _ _ _ 0) in H5; [| intros; simpl; ring].
  destruct H1 as [L1 T1], H2 as [L2 T2], H3 as [L3 T3], H4 as [L4 T4],
    H5 as [L5 T5].
  split; [congruence | lra].
Qed.

Lemma dep_segment_Done (qnx : float) (vp : t_vp) (J : list float3) :
  (0 <= vp_ix vp)%Z -> (vp_ix vp + 1 < Z.of_nat (length J))%Z ->
  (Z.of_nat (length J) <= int_max)%Z ->
  exists J', dep_segment qnx vp J = Done J'.
Proof.
  intros H0 H1 Hmax. unfold dep_segment.
  assert (int_add (vp_ix vp) 1 = vp_ix vp + 1)%Z as ->.
  { apply int_add_id. unfold int_range, int_min, int_max in *. lia. }
  destruct (add_at_Done (add_x (qnx * vp_dx vp)) J (vp_ix vp))
    as (? & J1 & _ & -> & L1 & _); [lia |].
  cbn [mbind outcome_bind].
  match goal with |- context [add_at ?u J1 (vp_ix vp)] =>
    destruct (add_at_Done u J1 (vp_ix vp)) as (? & J2 & _ & -> & L2 & _);
      [lia |] end.
  cbn [mbind outcome_bind].
  match goal with |- context [add_at ?u J2 (vp_ix vp + 1)%Z] =>
    destruct (add_at_Done u J2 (vp_ix vp + 1)%Z) as (? & J3 & _ & -> & L3 & _);
      [lia |] end.
  cbn [mbind outcome_bind].
  match goal with |- context [add_at ?u J3 (vp_ix vp)] =>
    destruct (add_at_Done u J3 (vp_ix vp)) as (? & J4 & _ & -> & L4 & _);
      [lia |] end.
  cbn [mbind outcome_bind].
  match goal with |- context [add_at ?u J4 (vp_ix vp + 1)%Z] =>
    destruct (add_at_Done u J4 (vp_ix vp + 1)%Z) as (? & J5 & _ & -> & L5 & _);
      [lia |] end.
  eauto.
Qed.

Lemma dep_segments_total (qnx : float) (vps : list t_vp) (J J' : list float3) :
  dep_segments qnx vps J = Done J' ->
  length J' = length J /\
  total_jx J' = total_jx J + Rsum (longitudinal qnx vps).
Proof.
  revert J. induction vps as [| vp vps IH]; intros J; simpl.
  - intros [= <-]. split; [reflexivity |]. unfold Rsum; simpl. ring.
  - destruct (dep_segment qnx vp J) as [J1 | |] eqn:H1; try discriminate.
    cbn [mbind outcome_bind]. intros H2.
    apply dep_segment_total in H1. apply IH in H2.
    destruct H1 as [L1 T1], H2 as [L2 T2].
    split; [congruence |]. unfold Rsum in *. simpl. lra.
Qed.

(** Whatever the cell delta and the position of the cell boundary, the
    longitudinal contributions of the sub-segments add up to [qnx * dx]. *)
Lemma split_longitudinal (ix0 di : Z) (x0 dx qnx qvy qvz : float) :
  Rsum (longitudinal qnx (split_trajectory cell_edge ix0 di x0 dx qvy qvz))
  = qnx * dx.
Proof.
  unfold split_trajectory, longitudinal, Rsum.
  destruct (di =? 0)%Z; simpl; ring.
Qed.

(** C1. For a step that crosses exactly one cell boundary ([di] is +1 or -1)
    the deposit writes two longitudinal contributions, one per sub-segment,
    whose sum is the single contribution [qnx * dx] written for the undivided
    trajectory, wherever the boundary lies; the longitudinal current held by
    the grid grows by [qnx * dx], and the deposit ends normally whenever the
    four cells it touches exist. *)
Theorem crossing_deposit_conserves_current
    (ix0 di : Z) (x0 dx qnx qvy qvz : float) :
  (di = 1 \/ di = -1)%Z ->
  (exists a b,
     split_trajectory cell_edge ix0 di x0 dx qvy qvz = [a; b] /\
     vp_ix a = ix0 /\ vp_ix b = int_add ix0 di /\
     longitudinal qnx [a; b] = [qnx * vp_dx a; qnx * vp_dx b] /\
     qnx * vp_dx a + qnx * vp_dx b = qnx * dx) /\
  longitudinal qnx (split_trajectory cell_edge ix0 0 x0 dx qvy qvz)
  = [qnx * dx] /\
  (forall J J',
     dep_current_zamb cell_edge ix0 di x0 dx qnx qvy qvz J = Done J' ->
     total_jx J' = total_jx J + qnx * dx) /\
  (forall J,
     (0 <= ix0)%Z -> (0 <= ix0 + di)%Z ->
     (ix0 + 1 < Z.of_nat (length J))%Z ->
     (ix0 + di + 1 < Z.of_nat (length J))%Z ->
     (Z.of_nat (length J) <= int_max)%Z ->
     exists J', dep_current_zamb cell_edge ix0 di x0 dx qnx qvy qvz J = Done J').
Proof.
  intros Hdi.
  assert ((di =? 0)%Z = false) as Hz by (apply Z.eqb_neq; lia).
  split; [| split; [| split]].
  - unfold split_trajectory. rewrite Hz.
    do 2 eexists. split; [reflexivity |]. simpl.
    repeat split. ring.
  - reflexivity.
  - intros J J' Hrun. unfold dep_current_zamb in Hrun.
    apply dep_segments_total in Hrun. destruct Hrun as [_ ->].
    rewrite split_longitudinal. reflexivity.
  - intros J H0 H1 H2 H3 Hmax.
    unfold dep_current_zamb, split_trajectory. rewrite Hz. simpl.
    assert (int_add ix0 di = ix0 + di)%Z as ->.
    { apply int_add_id. unfold int_range, int_min, int_max in *. lia. }
    match goal with |- context [dep_segment qnx ?vp J] =>
      destruct (dep_segment_Done qnx vp J) as [J1 HJ1]; simpl; try lia;
        rewrite HJ1 end.
    cbn [mbind outcome_bind].
    apply dep_segment_total in HJ1. destruct HJ1 as [L1 _].
    match goal with |- context [dep_segment qnx ?vp J1] =>
      destruct (dep_segment_Done qnx vp J1) as [J2 HJ2]; simpl; try lia;
        rewrite HJ2 end.
    cbn [mbind outcome_bind]. eauto.
Qed.

End Facts.
End ZambFacts.

(** * The statements on concrete inputs *)

Section Instances.
Local Open Scope R_scope.

(** C6 as stated fails: with [dt = 1] and [m_q = 2] the coefficient is
    [0.5 * 1 / 2], not [0.5 * 1 * 2]. *)
Lemma tem_is_not_half_dt_times_m_q :
  tem_of (Ex.species 0 Ex.bc_periodic)
  <> 0.5 * dt (Ex.species 0 Ex.bc_periodic) * m_q (Ex.species 0 Ex.bc_periodic).
Proof. unfold tem_of. simpl. lra. Qed.

Lemma tem_is_half_dt_over_m_q_witness :
  (1 / 2) * m_q (Ex.species 0 Ex.bc_periodic) = 1 /\
  tem_of (Ex.species 0 Ex.bc_periodic)
  = 0.5 * dt (Ex.species 0 Ex.bc_periodic) * (1 / 2).
Proof.
  assert ((1 / 2) * m_q (Ex.species 0 Ex.bc_periodic) = 1) as H
    by (simpl; lra).
  split; [exact H |].
  exact (proj2 (tem_is_half_dt_over_m_q (Ex.species 0 Ex.bc_periodic) (1 / 2) H)).
Defined.

Lemma crossing_deposit_conserves_current_witness :
  (1 = 1 \/ 1 = -1)%Z /\
  forall J J',
    Zamb.dep_current_zamb Ex.edge 3 1 (3 / 4) (1 / 2) 2 0 0 J = Done J' ->
    Zamb.total_jx J' = Zamb.total_jx J + 2 * (1 / 2).
Proof.
  split; [left; reflexivity |].
  exact (proj1 (proj2 (proj2
           (ZambFacts.crossing_deposit_conserves_current
              Ex.edge 3 1 (3 / 4) (1 / 2) 2 0 0 (or_introl eq_refl))))).
Defined.


(** The energy terms of the example pair: the particle of momentum (1, 1, 1)
    has [u2 = 3] and [gamma = 2], the particle at rest has [u2 = 0]. *)
Lemma example_energy_sum :
  foldr Rplus 0
    (map (fun p =>
            let tem := 0.5 * dt (Ex.pair Ex.mover (Ex.at_rest 5) Ex.bc_open)
                       / m_q (Ex.pair Ex.mover (Ex.at_rest 5) Ex.bc_open) in
            let utx := ux p + fx (Ex.no_field tt p).1 * tem in
            let uty := uy p + fy (Ex.no_field tt p).1 * tem in
            let utz := uz p + fz (Ex.no_field tt p).1 * tem in
            let u2 := utx * utx + uty * uty + utz * utz in
            u2 / (1 + sqrt (1 + u2)))
         (take (Z.to_nat (np (Ex.pair Ex.mover (Ex.at_rest 5) Ex.bc_open)))
               (part (Ex.pair Ex.mover (Ex.at_rest 5) Ex.bc_open))))
  = 1.
Proof.
  simpl. rewrite !Rmult_0_l, !Rplus_0_r, !Rmult_1_r, !Rmult_0_r, !Rplus_0_r.
  replace (1 + (1 + 1 + 1)) with (2 * 2) by ring.
  rewrite sqrt_square by lra. rewrite sqrt_1. lra.
Qed.

(** C7 as stated fails: with [q = 1], [m_q = 2] and [dx = 1] the stored
    energy of the example pair is [q * m_q * S * dx = 2], not
    [q * (1 / m_q) * S * dx = 1 / 2], where [1 / m_q] is the charge-to-mass
    ratio for which [tem = 0.5 * dt * (q/m)]. *)
Lemma stored_energy_is_not_q_times_charge_to_mass :
  tem_of (Ex.pair Ex.mover (Ex.at_rest 5) Ex.bc_open)
  = 0.5 * dt (Ex.pair Ex.mover (Ex.at_rest 5) Ex.bc_open)
    * (1 / m_q (Ex.pair Ex.mover (Ex.at_rest 5) Ex.bc_open)) /\
  exists st,
    push_loop Ex.no_field Ex.no_trim Ex.no_deposit 2
              (Ex.pair Ex.mover (Ex.at_rest 5) Ex.bc_open) tt tt = Done st /\
    energy (next_iter (store_energy (Ex.pair Ex.mover (Ex.at_rest 5) Ex.bc_open) st))
    <> q (Ex.pair Ex.mover (Ex.at_rest 5) Ex.bc_open)
       * (1 / m_q (Ex.pair Ex.mover (Ex.at_rest 5) Ex.bc_open))
       * foldr Rplus 0
           (map (fun p =>
                   let tem := 0.5 * dt (Ex.pair Ex.mover (Ex.at_rest 5) Ex.bc_open)
                              / m_q (Ex.pair Ex.mover (Ex.at_rest 5) Ex.bc_open) in
                   let utx := ux p + fx (Ex.no_field tt p).1 * tem in
                   let uty := uy p + fy (Ex.no_field tt p).1 * tem in
                   let utz := uz p + fz (Ex.no_field tt p).1 * tem in
                   let u2 := utx * utx + uty * uty + utz * utz in
                   u2 / (1 + sqrt (1 + u2)))
                (take (Z.to_nat (np (Ex.pair Ex.mover (Ex.at_rest 5) Ex.bc_open)))
                      (part (Ex.pair Ex.mover (Ex.at_rest 5) Ex.bc_open))))
       * dx (Ex.pair Ex.mover (Ex.at_rest 5) Ex.bc_open).
Proof.
  split; [unfold tem_of; simpl; lra |].
  eexists. split.
  { apply push_loop_spec; [| simpl; lia].
    unfold wf_species, int_max. simpl. lia. }
  rewrite example_energy_sum.
  change (energy (next_iter (store_energy
            (Ex.pair Ex.mover (Ex.at_rest 5) Ex.bc_open)
            (push_after Ex.no_field Ex.no_trim Ex.no_deposit
               (Ex.pair Ex.mover (Ex.at_rest 5) Ex.bc_open) tt tt
               (Z.to_nat (np (Ex.pair Ex.mover (Ex.at_rest 5) Ex.bc_open)))))))
    with (q (Ex.pair Ex.mover (Ex.at_rest 5) Ex.bc_open)
          * m_q (Ex.pair Ex.mover (Ex.at_rest 5) Ex.bc_open)
          * foldr Rplus 0
              (map (fun p =>
                      let tem := 0.5 * dt (Ex.pair Ex.mover (Ex.at_rest 5) Ex.bc_open)
                                 / m_q (Ex.pair Ex.mover (Ex.at_rest 5) Ex.bc_open) in
                      let utx := ux p + fx (Ex.no_field tt p).1 * tem in
                      let uty := uy p + fy (Ex.no_field tt p).1 * tem in
                      let utz := uz p + fz (Ex.no_field tt p).1 * tem in
                      let u2 := utx * utx + uty * uty + utz * utz in
                      u2 / (1 + sqrt (1 + u2)))
                   (take (Z.to_nat (np (Ex.pair Ex.mover (Ex.at_rest 5) Ex.bc_open)))
                         (part (Ex.pair Ex.mover (Ex.at_rest 5) Ex.bc_open))))
          * dx (Ex.pair Ex.mover (Ex.at_rest 5) Ex.bc_open)).
  rewrite example_energy_sum. simpl. lra.
Qed.

Lemma stored_energy_is_scaled_sum_witness :
  wf_species (Ex.pair Ex.mover (Ex.at_rest 5) Ex.bc_open) /\
  exists st,
    push_loop Ex.no_field Ex.no_trim Ex.no_deposit 2
              (Ex.pair Ex.mover (Ex.at_rest 5) Ex.bc_open) tt tt = Done st /\
    energy (next_iter (store_energy (Ex.pair Ex.mover (Ex.at_rest 5) Ex.bc_open) st))
    = 2.
Proof.
  assert (wf_species (Ex.pair Ex.mover (Ex.at_rest 5) Ex.bc_open)) as Hwf
    by (unfold wf_species, int_max; simpl; lia).
  split; [exact Hwf |].
  destruct (stored_energy_is_scaled_sum unit unit Ex.no_field Ex.no_trim
              Ex.no_deposit (Ex.pair Ex.mover (Ex.at_rest 5) Ex.bc_open)
              tt tt 2 Hwf (le_n 2)) as (st & Hrun & He).
  exists st. split; [exact Hrun |].
  rewrite He, example_energy_sum. simpl. lra.
Defined.

Lemma wf_example (mw bc : Z) : wf_species (Ex.species mw bc).
Proof. unfold wf_species, int_max. simpl. lia. Defined.

Lemma absorbing_removal_witness :
  bc_type (Ex.species 0 Ex.bc_open) = Ex.bc_open /\
  wf_species (Ex.species 0 Ex.bc_open) /\
  exists spec',
    boundary Ex.no_shift Ex.bc_open 4 10 (Ex.species 0 Ex.bc_open) = Done spec' /\
    live spec' ≡ₚ [Ex.at_rest 2; Ex.at_rest 5] /\
    np spec' = (np (Ex.species 0 Ex.bc_open) - 2)%Z.
Proof.
  split; [reflexivity |]. split; [apply wf_example |].
  apply (proj2 (absorbing_removal Ex.no_shift Ex.bc_open 4 10
                  (Ex.species 0 Ex.bc_open) eq_refl
                  (wf_example 0 Ex.bc_open) (le_n 4))
           (Ex.at_rest (-1)) (Ex.at_rest 2) (Ex.at_rest 10) (Ex.at_rest 5));
    reflexivity.
Defined.

Lemma periodic_wrap_maps_indices_witness :
  moving_window (Ex.species 0 Ex.bc_periodic) = 0%Z /\
  bc_type (Ex.species 0 Ex.bc_periodic) <> Ex.bc_open /\
  exists spec',
    boundary Ex.no_shift Ex.bc_open 4 10 (Ex.species 0 Ex.bc_periodic)
    = Done spec' /\
    np spec' = np (Ex.species 0 Ex.bc_periodic) /\
    exists p', part spec' !! 0%nat = Some p' /\ ix p' = (10 - 1)%Z.
Proof.
  assert (bc_type (Ex.species 0 Ex.bc_periodic) <> Ex.bc_open) as Hbc
    by (simpl; unfold Ex.bc_periodic, Ex.bc_open; lia).
  split; [reflexivity |]. split; [exact Hbc |].
  assert (0 <= 10 <= int_max)%Z as Hnx by (unfold int_max; lia).
  destruct (periodic_wrap_maps_indices Ex.no_shift Ex.bc_open 4 10
              (Ex.species 0 Ex.bc_periodic) eq_refl Hbc
              (wf_example 0 Ex.bc_periodic) (le_n 4) Hnx)
    as (spec' & Hrun & _ & Hnp & _ & Hpart).
  exists spec'. split; [exact Hrun |]. split; [exact Hnp |].
  destruct (Hpart 0%nat (Ex.at_rest (-1)) eq_refl)
    as (p' & Hp' & _ & _ & _ & _ & _ & Hm1 & _).
  exists p'. split; [exact Hp' |].
  apply Hm1; [simpl; lia | reflexivity].
Defined.

Lemma moving_window_forces_absorbing_witness :
  moving_window (Ex.species 1 Ex.bc_periodic) <> 0%Z /\
  bc_type (Ex.species 1 Ex.bc_periodic) <> Ex.bc_open /\
  exists spec',
    boundary Ex.no_shift Ex.bc_open 4 10 (Ex.species 1 Ex.bc_periodic)
    = Done spec' /\
    np spec' = 2%Z.
Proof.
  assert (moving_window (Ex.species 1 Ex.bc_periodic) <> 0%Z) as Hmw
    by (simpl; lia).
  split; [exact Hmw |].
  split; [simpl; unfold Ex.bc_periodic, Ex.bc_open; lia |].
  destruct (proj2 (moving_window_forces_absorbing Ex.no_shift Ex.bc_open 4 10
                     (Ex.species 1 Ex.bc_periodic) Hmw
                     (wf_example 1 Ex.bc_periodic) (le_n 4)))
    as (spec' & Hrun & _ & _ & Hnp).
  exists spec'. split; [exact Hrun | exact Hnp].
Defined.

Lemma absorbing_scan_terminates_witness :
  wf_species (Ex.species 0 Ex.bc_open) /\
  exists spec',
    absorb_scan 4 10 (Ex.species 0 Ex.bc_open) = Done spec' /\
    (0 <= np spec' <= np (Ex.species 0 Ex.bc_open))%Z.
Proof.
  split; [apply wf_example |].
  exact (proj1 (absorbing_scan_terminates 10 (Ex.species 0 Ex.bc_open)
                  (wf_example 0 Ex.bc_open))).
Defined.

End Instances.

(** ** The boundary pass on the four particles of the specification *)

(** The compaction visits slot 0 twice: the particle of cell -1 is replaced by
    the last live one (cell 5), which stays; the particle of cell 10 is then
    the last live one and is dropped in place. *)
Example absorb_scan_trace :
  absorb_scan 4 10 (Ex.species 0 Ex.bc_open)
  = Done (set_np 2
            (set_part [Ex.at_rest 5; Ex.at_rest 2; Ex.at_rest 10;
                       Ex.at_rest 5; Ex.at_rest 7]
                      (Ex.species 0 Ex.bc_open))).
Proof. reflexivity. Qed.

(** Three iterations are not enough for this input. *)
Example absorb_scan_short_fuel :
  absorb_scan 3 10 (Ex.species 0 Ex.bc_open) = OutOfFuel.
Proof. reflexivity. Qed.

Example periodic_wrap_trace :
  periodic_wrap 4 10 (Ex.species 0 Ex.bc_periodic)
  = Done (set_part [Ex.at_rest 9; Ex.at_rest 2; Ex.at_rest 0;
                    Ex.at_rest 5; Ex.at_rest 7]
                   (Ex.species 0 Ex.bc_periodic)).
Proof. reflexivity. Qed.

(** A live count beyond the buffer makes the scan read outside it. *)
Example absorb_scan_overrun :
  absorb_scan 6 10 (set_np 6 (Ex.species 0 Ex.bc_open)) = Fault.
Proof. reflexivity. Qed.

(** * Further properties of the code *)

(** ** The momentum pusher and the displacement *)

Section PusherMore.
Local Open Scope R_scope.

Variable ltrim : float -> Z.

Lemma gamma_sqr (v : float3) : gamma_of v * gamma_of v = 1 + u2_of v.
Proof.
  unfold gamma_of. apply sqrt_sqrt. pose proof (u2_nonneg v). lra.
Qed.

(** X1. The energy term [u2 / (1 + gamma)] added at line 90 is the kinetic
    energy [gamma - 1] of the half-accelerated momentum. *)
Theorem energy_term_is_gamma_minus_1 (tem : float) (u Ep : float3) :
  push_energy tem u Ep = gamma_of (half_accel u (scale3 Ep tem)) - 1.
Proof.
  unfold push_energy, kin_term.
  set (ut := half_accel u (scale3 Ep tem)).
  pose proof (gamma_sqr ut) as Hs. pose proof (gamma_ge_1 ut) as Hg.
  assert (u2_of ut = (gamma_of ut - 1) * (1 + gamma_of ut)) as -> by lra.
  field. lra.
Qed.

(** X2. Without a magnetic sample the push is the plain electric
    acceleration: every momentum component grows by [2 * tem] times the
    electric sample, whatever the momentum. *)
Theorem electric_push_is_linear (tem : float) (u Ep : float3) :
  boris_push tem u Ep zero3
  = mk_float3 (fx u + 2 * tem * fx Ep) (fy u + 2 * tem * fy Ep)
              (fz u + 2 * tem * fz Ep).
Proof.
  unfold boris_push.
  generalize (tem / gamma_of (half_accel u (scale3 Ep tem))). intros g.
  generalize (otsq_of (scale3 zero3 g)). intros o.
  destruct u as [a b c], Ep as [ex ey ez].
  unfold half_accel, rot_second, rot_first, scale3, zero3; simpl.
  f_equal; ring.
Qed.

(** X3. The magnetic rotation never changes the momentum along the magnetic
    sample: the component of the momentum along [Bp] changes by the electric
    impulse only. *)
Theorem push_along_B (tem : float) (u Ep Bp : float3) :
  dot3 (boris_push tem u Ep Bp) Bp = dot3 u Bp + 2 * tem * dot3 Ep Bp.
Proof.
  unfold boris_push.
  generalize (tem / gamma_of (half_accel u (scale3 Ep tem))). intros g.
  generalize (otsq_of (scale3 Bp g)). intros o.
  destruct u as [a b c], Ep as [ex ey ez], Bp as [bx by_ bz].
  unfold dot3, half_accel, rot_second, rot_first, scale3; simpl.
  ring.
Qed.

Lemma rotation_inverse (ut B : float3) :
  let v := rot_second ut (rot_first ut B) (scale3 B (otsq_of B)) in
  rot_second v (rot_first v (neg3 B)) (scale3 (neg3 B) (otsq_of (neg3 B))) = ut.
Proof.
  destruct ut as [a b c], B as [bx by_ bz].
  unfold rot_second, rot_first, scale3, otsq_of, neg3; simpl.
  f_equal; field; nra.
Qed.

(** X4. The magnetic push is reversible: pushing with the opposite magnetic
    sample (and no electric sample) brings back the momentum the first push
    started from. *)
Theorem magnetic_push_reversible (tem : float) (u Bp : float3) :
  boris_push tem (boris_push tem u zero3 Bp) zero3 (neg3 Bp) = u.
Proof.
  assert (gamma_of (boris_push tem u zero3 Bp) = gamma_of u) as Hg.
  { unfold gamma_of. rewrite boris_push_no_E_u2. reflexivity. }
  unfold boris_push at 1. rewrite !half_accel_zero, Hg.
  unfold boris_push. rewrite !half_accel_zero.
  set (g := tem / gamma_of u).
  assert (scale3 (neg3 Bp) g = neg3 (scale3 Bp g)) as ->.
  { destruct Bp. unfold scale3, neg3; simpl. f_equal; ring. }
  apply rotation_inverse.
Qed.

Lemma below_light (a b c : float) :
  let g := sqrt (1 + a * a + b * b + c * c) in
  0 < g /\ -1 < 1 / g * a < 1 /\ -1 < 1 / g * b < 1 /\ -1 < 1 / g * c < 1.
Proof.
  intros g.
  assert (g * g = 1 + a * a + b * b + c * c) as Hgg by (apply sqrt_sqrt; nra).
  assert (0 <= g) as Hg0 by apply sqrt_pos.
  assert (0 < g) as Hg by nra.
  assert (forall t, t * t < g * g -> -1 < 1 / g * t < 1) as H.
  { intros t Ht.
    assert (1 / g * t * g = t) as Ht' by (field; lra).
    assert (- g < t < g) by (split; nra).
    split; nra. }
  split; [exact Hg |]. repeat split; apply H; nra.
Qed.

(** X5. Over the reals a particle is slower than light: in exact arithmetic
    the displacement of one step is at most [dt/dx] cells in absolute value
    (less, when [dt/dx] is not zero), and the charge-weighted transverse
    velocities handed to the deposit are at most the charge in absolute
    value.  Binary32 rounding can reach or exceed these bounds by a unit in
    the last place ([f32_dx_reaches_dt_dx], [f32_dx_exceeds_dt_dx],
    [f32_qvy_exceeds_q]). *)
Theorem displacement_below_dt_dx (tem dt_dx qs : float) (p : t_part)
    (Ep Bp : float3) :
  let r := advance_particle ltrim tem dt_dx qs p Ep Bp in
  Rabs (st_dx r) <= Rabs dt_dx /\
  (dt_dx <> 0 -> Rabs (st_dx r) < Rabs dt_dx) /\
  Rabs (st_qvy r) <= Rabs qs /\
  Rabs (st_qvz r) <= Rabs qs.
Proof.
  intros r. subst r. unfold advance_particle. cbv zeta.
  set (u := boris_push tem (momentum p) Ep Bp).
  cbn [st_dx st_qvy st_qvz].
  destruct (below_light (fx u) (fy u) (fz u)) as (_ & Hx & Hy & Hz).
  set (g := sqrt (1 + fx u * fx u + fy u * fy u + fz u * fz u)) in *.
  assert (forall k t, -1 < t < 1 -> Rabs (k * t) <= Rabs k /\
                                   (k <> 0 -> Rabs (k * t) < Rabs k)) as H.
  { intros k t Ht. rewrite Rabs_mult.
    assert (Rabs t < 1) by (apply Rabs_def1; lra).
    pose proof (Rabs_pos k). pose proof (Rabs_pos t).
    split; [nra |]. intros Hk. apply Rabs_pos_lt in Hk. nra. }
  replace (dt_dx * (1 / g) * fx u) with (dt_dx * (1 / g * fx u)) by ring.
  replace (qs * fy u * (1 / g)) with (qs * (1 / g * fy u)) by ring.
  replace (qs * fz u * (1 / g)) with (qs * (1 / g * fz u)) by ring.
  repeat split; apply H; assumption.
Qed.

End PusherMore.

(** ** The main loop *)

Lemma prefix_map_take f k l :
  (k <= length l)%nat -> take k (prefix_map f k l) = map f (take k l).
Proof.
  intros Hk. unfold prefix_map.
  apply take_app_length'. rewrite length_map, length_take_le; lia.
Qed.

Lemma prefix_map_drop f k l :
  (k <= length l)%nat -> drop k (prefix_map f k l) = drop k l.
Proof.
  intros Hk. unfold prefix_map.
  apply drop_app_length'. rewrite length_map, length_take_le; lia.
Qed.

Lemma prefix_map_compose f g k l :
  (k <= length l)%nat ->
  prefix_map g k (prefix_map f k l) = prefix_map (fun p => g (f p)) k l.
Proof.
  intros Hk. unfold prefix_map at 1.
  rewrite prefix_map_take, prefix_map_drop by exact Hk.
  unfold prefix_map. rewrite map_map. reflexivity.
Qed.

Lemma while_loop_exit {S : Type} (cond : S -> bool) (body : S -> outcome S)
    (fuel : nat) (s : S) :
  cond s = false -> while_loop cond body fuel s = Done s.
Proof. intros Hc. destruct fuel; simpl; rewrite Hc; reflexivity. Qed.

Lemma Rsum_nonneg (l : list float) :
  Forall (fun e => (0 <= e)%R) l -> (0 <= Rsum l)%R.
Proof.
  unfold Rsum. induction 1 as [| e l He _ IH]; simpl; lra.
Qed.

Lemma Rsum_perm (l l' : list float) : l ≡ₚ l' -> Rsum l = Rsum l'.
Proof.
  unfold Rsum.
  induction 1 as [| a l l' _ IH | a b l | l l' l'' _ IH1 _ IH2]; simpl; lra.
Qed.

Lemma kin_term_nonneg (v : float3) : (0 <= kin_term v)%R.
Proof.
  unfold kin_term. pose proof (u2_nonneg v). pose proof (gamma_ge_1 v).
  apply Rmult_le_pos; [assumption |].
  apply Rlt_le, Rinv_0_lt_compat. lra.
Qed.

Section LoopMore.
Local Open Scope R_scope.

Variable t_emf : Type.
Variable t_current : Type.
Variable interpolate_fld : t_emf -> t_part -> float3 * float3.
Variable ltrim : float -> Z.
Variable dep_current_zamb :
  Z -> Z -> float -> float -> float -> float -> float -> t_current -> t_current.
Variable spec_move_window : t_species -> t_species.
Variable spec_sort : t_species -> t_species.
Variable PART_BC_OPEN : Z.

(** X6. The main loop ends within [np] iterations.  It leaves in every live
    slot the advanced copy of the particle that was there, leaves the slots
    beyond [np] and the size of the buffer alone, and has called the deposit
    once per live particle, in slot order, with the cell index and offset the
    particle had before the step. *)
Theorem main_loop_advances_live_slots spec emf current fuel :
  wf_species spec -> (Z.to_nat (np spec) <= fuel)%nat ->
  exists st,
    push_loop interpolate_fld ltrim dep_current_zamb fuel spec emf current
    = Done st /\
    ps_i st = np spec /\
    length (ps_part st) = length (part spec) /\
    (forall (k : nat) (p : t_part), part spec !! k = Some p ->
       ps_part st !! k
       = Some (if (Z.of_nat k <? np spec)%Z
               then st_part (step_of interpolate_fld ltrim spec emf p)
               else p)) /\
    ps_current st
    = fold_left
        (fun J p =>
           let r := step_of interpolate_fld ltrim spec emf p in
           dep_current_zamb (ix p) (st_di r) (x p) (st_dx r) (qnx_of spec)
                            (st_qvy r) (st_qvz r) J)
        (live spec) current.
Proof.
  intros Hwf Hfuel. eexists. split.
  { apply push_loop_spec; assumption. }
  destruct Hwf as [[Hnp Hmax] Hcap].
  unfold push_after. cbn [ps_i ps_part ps_current].
  split; [lia |]. split; [apply prefix_map_length |]. split; [| reflexivity].
  intros k p Hp.
  destruct (Z.ltb_spec (Z.of_nat k) (np spec)).
  - apply (prefix_map_lookup_lt
             (fun p => st_part (step_of interpolate_fld ltrim spec emf p)));
      [lia | exact Hp].
  - rewrite prefix_map_lookup_ge by lia. exact Hp.
Qed.

(** X7. A species without live particles ([np <= 0]) and without moving
    window goes through the function with no fuel at all: no particle slot is
    touched, the current grid is returned as it came, the stored energy is 0
    and the iteration counter has advanced. *)
Theorem advance_of_empty_species spec emf current fuel :
  (np spec <= 0)%Z -> moving_window spec = 0%Z ->
  exists spec',
    spec_advance interpolate_fld ltrim dep_current_zamb spec_move_window
                 spec_sort PART_BC_OPEN fuel spec emf current
    = Done (maybe_sort spec_sort spec', current) /\
    part spec' = part spec /\ np spec' = np spec /\
    energy spec' = 0 /\ iter spec' = int_add (iter spec) 1.
Proof.
  intros Hnp Hmw.
  assert (forall i, (0 <= i)%Z -> (i <? np spec)%Z = false) as Hc
    by (intros; apply Z.ltb_ge; lia).
  unfold spec_advance, push_loop.
  rewrite while_loop_exit by (simpl; apply Hc; lia).
  cbn [mbind outcome_bind].
  unfold boundary. cbn [moving_window next_iter set_iter store_energy
                          set_energy set_part bc_type].
  rewrite Hmw. cbn [Z.eqb negb orb].
  destruct (bc_type spec =? PART_BC_OPEN)%Z.
  - unfold absorb_scan.
    rewrite while_loop_exit by (unfold absorb_cond; simpl; apply Hc; lia).
    cbn [mbind outcome_bind snd].
    eexists. split; [reflexivity |]. simpl. repeat split. ring.
  - unfold periodic_wrap.
    rewrite while_loop_exit by (simpl; apply Hc; lia).
    cbn [mbind outcome_bind snd].
    eexists. split; [reflexivity |]. simpl. repeat split. ring.
Qed.

(** X8. In periodic mode the whole function ends normally: every live slot
    holds the advanced particle with its cell index wrapped by the cell count
    read before the loop, the energy and the incremented iteration counter
    are stored, nothing else changes, and the sort test sees the incremented
    counter. *)
Theorem advance_periodic spec emf current fuel :
  wf_species spec -> (Z.to_nat (np spec) <= fuel)%nat ->
  moving_window spec = 0%Z -> bc_type spec <> PART_BC_OPEN ->
  spec_advance interpolate_fld ltrim dep_current_zamb spec_move_window
               spec_sort PART_BC_OPEN fuel spec emf current
  = Done
      (maybe_sort spec_sort
         (set_part
            (prefix_map
               (fun p => wrap_ix (nx spec)
                           (st_part (step_of interpolate_fld ltrim spec emf p)))
               (Z.to_nat (np spec)) (part spec))
            (set_iter (int_add (iter spec) 1)
               (set_energy
                  (q spec * m_q spec
                   * Rsum (map (fun p => st_energy
                                  (step_of interpolate_fld ltrim spec emf p))
                               (live spec))
                   * dx spec)
                  spec))),
       fold_left (deposit_of interpolate_fld ltrim dep_current_zamb spec emf)
                 (live spec) current).
Proof.
  intros Hwf Hfuel Hmw Hbc.
  rewrite spec_advance_stages by assumption. cbv zeta.
  unfold boundary. cbn [moving_window next_iter set_iter store_energy
                          set_energy set_part bc_type].
  rewrite Hmw. cbn [Z.eqb negb orb].
  destruct (Z.eqb_spec (bc_type spec) PART_BC_OPEN) as [E | _]; [tauto |].
  destruct Hwf as [[Hnp Hmax] Hcap].
  rewrite periodic_wrap_spec.
  - cbn [mbind outcome_bind]. simpl.
    rewrite prefix_map_compose by lia. reflexivity.
  - unfold wf_species. simpl. rewrite prefix_map_length. lia.
  - simpl. exact Hfuel.
Qed.

End LoopMore.

(** ** The boundary pass *)

(** One iteration of the compaction either advances the scan or overwrites
    slot [i] with the last live particle and shortens the live range. *)
Lemma absorb_body_shape (nx0 : Z) (i : Z) (s : t_species) :
  0 <= i < np s -> np s <= int_max -> np s <= Z.of_nat (length (part s)) ->
  (exists p, part s !! Z.to_nat i = Some p /\ inside nx0 p = true /\
             absorb_body nx0 (i, s) = Done (i + 1, s)) \/
  (exists p pl, part s !! Z.to_nat i = Some p /\ inside nx0 p = false /\
                part s !! Z.to_nat (np s - 1) = Some pl /\
                absorb_body nx0 (i, s)
                = Done (i, set_part (<[Z.to_nat i := pl]> (part s))
                                    (set_np (np s - 1) s))).
Proof.
  intros Hi Hmax Hcap.
  assert (Z.to_nat i < length (part s))%nat as Hil by lia.
  destruct (lookup_lt_is_Some_2 _ _ Hil) as [p Hp].
  unfold absorb_body. cbn [fst snd].
  rewrite (read_part_Some (part s) i p); [| lia | exact Hp].
  cbn [mbind outcome_bind]. rewrite out_of_box_inside.
  destruct (inside nx0 p) eqn:Hin; cbn [negb].
  - left. exists p. rewrite int_add_id.
    2:{ unfold int_range, int_min, int_max in *. lia. }
    auto.
  - right.
    assert (int_sub (np s) 1 = np s - 1) as ->.
    { apply int_sub_id. unfold int_range, int_min, int_max in *. lia. }
    assert (Z.to_nat (np s - 1) < length (part s))%nat as Hnl by lia.
    destruct (lookup_lt_is_Some_2 _ _ Hnl) as [pl Hpl].
    rewrite (read_part_Some (part s) (np s - 1) pl); [| lia | exact Hpl].
    cbn [mbind outcome_bind].
    rewrite (write_part_Some (part s) i p); [| lia | exact Hp].
    cbn [mbind outcome_bind].
    exists p, pl. auto.
Qed.

Lemma absorb_scan_noop (fuel : nat) (nx0 : Z) (spec : t_species) :
  wf_species spec -> (Z.to_nat (np spec) <= fuel)%nat ->
  Forall (fun p => inside nx0 p = true) (live spec) ->
  absorb_scan fuel nx0 spec = Done spec.
Proof.
  intros [[Hnp Hmax] Hcap] Hfuel Hall.
  pose (Inv := fun st : Z * t_species => snd st = spec /\ 0 <= fst st <= np spec).
  destruct (while_loop_total absorb_cond (absorb_body nx0) Inv absorb_measure)
    with (fuel := fuel) (s := (0, spec))
    as ([i s] & Hrun & [Hs _] & _).
  - intros [i s] [Hs Hi] Hc. simpl in Hs, Hi. subst s.
    unfold absorb_cond in Hc. simpl in Hc. apply Z.ltb_lt in Hc.
    destruct (absorb_body_shape nx0 i spec) as
      [(p & Hp & Hin & Hb) | (p & pl & Hp & Hin & _)]; try lia.
    + exists (i + 1, spec). split; [exact Hb |]. split.
      * split; simpl; [reflexivity | lia].
      * unfold absorb_measure. simpl. lia.
    + exfalso.
      assert (live spec !! Z.to_nat i = Some p) as Hl
        by (unfold live; rewrite lookup_take_lt by lia; exact Hp).
      rewrite Forall_lookup in Hall. rewrite (Hall _ _ Hl) in Hin.
      discriminate.
  - split; simpl; [reflexivity | lia].
  - unfold absorb_measure. simpl. lia.
  - simpl in Hs. subst s. unfold absorb_scan. rewrite Hrun. reflexivity.
Qed.

(** X9. The compaction leaves a species alone when every live particle is
    inside the box: no slot is rewritten and the count is kept. *)
Theorem absorbing_scan_keeps_inside_species (fuel : nat) (nx0 : Z)
    (spec : t_species) :
  wf_species spec -> (Z.to_nat (np spec) <= fuel)%nat ->
  Forall (fun p => 0 <= ix p < nx0) (live spec) ->
  absorb_scan fuel nx0 spec = Done spec.
Proof.
  intros Hwf Hfuel Hall. apply absorb_scan_noop; try assumption.
  eapply Forall_impl; [exact Hall |]. intros p. apply inside_spec.
Qed.

(** X10. The compaction is idempotent: a second scan of its result changes
    nothing. *)
Theorem absorbing_scan_idempotent (fuel : nat) (nx0 : Z) (spec : t_species) :
  wf_species spec -> (Z.to_nat (np spec) <= fuel)%nat ->
  exists spec',
    absorb_scan fuel nx0 spec = Done spec' /\
    absorb_scan fuel nx0 spec' = Done spec'.
Proof.
  intros Hwf Hfuel.
  destruct (absorb_scan_spec fuel nx0 spec Hwf Hfuel)
    as (spec' & Hrun & _ & Hnp & Hlen & Hin & _).
  exists spec'. split; [exact Hrun |].
  destruct Hwf as [[Hnp0 Hmax] Hcap].
  apply absorb_scan_noop.
  - unfold wf_species. rewrite Hlen. lia.
  - lia.
  - eapply Forall_impl; [exact Hin |]. intros p. apply inside_spec.
Qed.

(** X11. The compaction writes only below the initial live count: the slots
    from [np] on, the size of the buffer and every scalar field of the
    species other than [np] are as before. *)
Theorem absorbing_scan_frame (fuel : nat) (nx0 : Z) (spec : t_species) :
  wf_species spec -> (Z.to_nat (np spec) <= fuel)%nat ->
  exists spec',
    absorb_scan fuel nx0 spec = Done spec' /\
    drop (Z.to_nat (np spec)) (part spec')
    = drop (Z.to_nat (np spec)) (part spec) /\
    length (part spec') = length (part spec) /\
    spec' = set_part (part spec') (set_np (np spec') spec).
Proof.
  intros [[Hnp Hmax] Hcap] Hfuel.
  pose (Inv := fun st : Z * t_species =>
          0 <= fst st <= np (snd st) /\ np (snd st) <= np spec /\
          length (part (snd st)) = length (part spec) /\
          drop (Z.to_nat (np spec)) (part (snd st))
          = drop (Z.to_nat (np spec)) (part spec) /\
          snd st = set_part (part (snd st)) (set_np (np (snd st)) spec)).
  destruct (while_loop_total absorb_cond (absorb_body nx0) Inv absorb_measure)
    with (fuel := fuel) (s := (0, spec))
    as ([i s] & Hrun & (_ & _ & Hlen & Hdrop & Hs) & _).
  - intros [i s] (Hi & Hle & Hlen & Hdrop & Hs) Hc. simpl in *.
    unfold absorb_cond in Hc. simpl in Hc. apply Z.ltb_lt in Hc.
    destruct (absorb_body_shape nx0 i s) as
      [(p & _ & _ & Hb) | (p & pl & _ & _ & _ & Hb)]; try lia.
    + exists (i + 1, s). split; [exact Hb |]. split.
      * unfold Inv. simpl. repeat split; try lia; assumption.
      * unfold absorb_measure. simpl. lia.
    + eexists. split; [exact Hb |]. split.
      * unfold Inv. simpl. repeat split; try lia.
        -- rewrite length_insert. exact Hlen.
        -- rewrite drop_insert_lt by lia. exact Hdrop.
        -- rewrite Hs. reflexivity.
      * unfold absorb_measure. simpl. lia.
  - unfold Inv. simpl. repeat split; try lia. destruct spec; reflexivity.
  - unfold absorb_measure. simpl. lia.
  - simpl in *. exists s. unfold absorb_scan. rewrite Hrun. auto.
Qed.

(** X12. The periodic pass maps the live particles through the wrap, in
    place, and the wrap is a single one: a wrapped index lies in [0, nx)
    exactly when the index was less than one box length outside, so a
    particle further away stays outside. *)
Theorem periodic_wrap_is_single (fuel : nat) (nx0 : Z) (spec : t_species) :
  wf_species spec -> (Z.to_nat (np spec) <= fuel)%nat ->
  0 < nx0 <= int_max ->
  exists spec',
    periodic_wrap fuel nx0 spec = Done spec' /\
    live spec' = map (wrap_ix nx0) (live spec) /\
    forall p, int_range (ix p) ->
      (0 <= ix (wrap_ix nx0 p) < nx0 <-> - nx0 <= ix p < 2 * nx0).
Proof.
  intros Hwf Hfuel Hnx. eexists. split.
  { apply periodic_wrap_spec; assumption. }
  destruct Hwf as [[Hnp Hmax] Hcap]. split.
  - unfold live. simpl. apply prefix_map_take. lia.
  - intros p Hp. rewrite wrap_ix_value by (auto; lia).
    unfold int_range, int_min, int_max in *.
    destruct (Z.ltb_spec (ix p) 0), (Z.geb_spec (ix p) nx0); lia.
Qed.

(** ** The whole function with open boundaries, the energy, the buffer *)

Section AdvanceMore.
Local Open Scope R_scope.

Variable t_emf : Type.
Variable t_current : Type.
Variable interpolate_fld : t_emf -> t_part -> float3 * float3.
Variable ltrim : float -> Z.
Variable dep_current_zamb :
  Z -> Z -> float -> float -> float -> float -> float -> t_current -> t_current.
Variable spec_move_window : t_species -> t_species.
Variable spec_sort : t_species -> t_species.
Variable PART_BC_OPEN : Z.

(** X13. With open boundaries and no moving window the whole function ends
    normally: the survivors are, up to order, the advanced particles whose
    new cell index lies in [0, nx), the count drops by the number of the
    others, the energy (summed over all particles, the leavers included) and
    the incremented iteration counter are stored, and the buffer keeps its
    size. *)
Theorem advance_open spec emf current fuel :
  wf_species spec -> (Z.to_nat (np spec) <= fuel)%nat ->
  moving_window spec = 0%Z -> bc_type spec = PART_BC_OPEN ->
  let adv := fun p => st_part (step_of interpolate_fld ltrim spec emf p) in
  exists spec',
    spec_advance interpolate_fld ltrim dep_current_zamb spec_move_window
                 spec_sort PART_BC_OPEN fuel spec emf current
    = Done (maybe_sort spec_sort spec',
            fold_left (deposit_of interpolate_fld ltrim dep_current_zamb
                                  spec emf)
                      (live spec) current) /\
    live spec' ≡ₚ List.filter (inside (nx spec)) (map adv (live spec)) /\
    np spec' = (np spec
                - Z.of_nat (length (List.filter (out_of_box (nx spec))
                                                (map adv (live spec)))))%Z /\
    length (part spec') = length (part spec) /\
    iter spec' = int_add (iter spec) 1 /\
    energy spec'
    = q spec * m_q spec
      * Rsum (map (fun p => st_energy (step_of interpolate_fld ltrim spec emf p))
                  (live spec))
      * dx spec.
Proof.
  intros Hwf Hfuel Hmw Hbc adv.
  rewrite spec_advance_stages by assumption. cbv zeta.
  set (st := push_after interpolate_fld ltrim dep_current_zamb spec emf current
                        (Z.to_nat (np spec))).
  set (spec1 := next_iter (store_energy spec st)).
  assert (boundary spec_move_window PART_BC_OPEN fuel (nx spec) spec1
          = absorb_scan fuel (nx spec) spec1) as ->.
  { unfold boundary. replace (moving_window spec1) with 0%Z by (symmetry; exact Hmw).
    replace (bc_type spec1) with PART_BC_OPEN by (symmetry; exact Hbc).
    rewrite !Z.eqb_refl. reflexivity. }
  destruct Hwf as [[Hnp Hmax] Hcap].
  assert (part spec1 = prefix_map adv (Z.to_nat (np spec)) (part spec)) as Hpart
    by reflexivity.
  assert (np spec1 = np spec) as Hnp1 by reflexivity.
  assert (live spec1 = map adv (live spec)) as Hlive.
  { unfold live. rewrite Hnp1, Hpart. apply prefix_map_take. lia. }
  destruct (absorb_scan_spec fuel (nx spec) spec1)
    as (spec' & Hrun & (l & n & Hs) & _ & Hlen & _ & Hperm & Hcount).
  { unfold wf_species. rewrite Hnp1, Hpart, prefix_map_length. lia. }
  { rewrite Hnp1. exact Hfuel. }
  exists spec'. rewrite Hrun. cbn [mbind outcome_bind].
  split; [reflexivity |].
  rewrite Hlive in Hperm, Hcount. rewrite Hnp1 in Hcount.
  rewrite Hpart, prefix_map_length in Hlen.
  split; [exact Hperm |]. split; [exact Hcount |]. split; [exact Hlen |].
  rewrite Hs. split; reflexivity.
Qed.

(** X14. Over the reals the energy stored after the main loop has the sign
    of [q * m_q * dx]: in exact arithmetic it is non-negative whenever
    [q * m_q] and [dx] are.  (In binary32 a term of a particle whose [u2]
    overflows is NaN, see the energy term in binary32 below.) *)
Theorem stored_energy_nonneg spec emf current fuel :
  wf_species spec -> (Z.to_nat (np spec) <= fuel)%nat ->
  0 <= q spec * m_q spec -> 0 <= dx spec ->
  exists st,
    push_loop interpolate_fld ltrim dep_current_zamb fuel spec emf current
    = Done st /\
    0 <= energy (store_energy spec st).
Proof.
  intros Hwf Hfuel Hqm Hdx. eexists. split.
  { apply push_loop_spec; assumption. }
  unfold store_energy, push_after. cbn [energy set_energy ps_energy].
  apply Rmult_le_pos; [| exact Hdx].
  apply Rmult_le_pos; [exact Hqm |].
  apply Rsum_nonneg. apply Forall_forall. intros e He.
  apply list_elem_of_In, in_map_iff in He. destruct He as (p & <- & _).
  apply kin_term_nonneg.
Qed.

(** X15. The stored energy does not depend on the order of the particles:
    two species with the same [dt], [dx], [m_q] and [q] whose live particles
    are the same up to order store the same energy. *)
Theorem stored_energy_order_independent spec1 spec2 emf cur1 cur2 fuel :
  wf_species spec1 -> wf_species spec2 ->
  (Z.to_nat (np spec1) <= fuel)%nat -> (Z.to_nat (np spec2) <= fuel)%nat ->
  dt spec1 = dt spec2 -> dx spec1 = dx spec2 ->
  m_q spec1 = m_q spec2 -> q spec1 = q spec2 ->
  live spec1 ≡ₚ live spec2 ->
  exists st1 st2,
    push_loop interpolate_fld ltrim dep_current_zamb fuel spec1 emf cur1
    = Done st1 /\
    push_loop interpolate_fld ltrim dep_current_zamb fuel spec2 emf cur2
    = Done st2 /\
    energy (store_energy spec1 st1) = energy (store_energy spec2 st2).
Proof.
  intros Hwf1 Hwf2 Hf1 Hf2 Hdt Hdx Hmq Hq Hperm.
  do 2 eexists. split; [apply push_loop_spec; assumption |].
  split; [apply push_loop_spec; assumption |].
  unfold store_energy, push_after. cbn [energy set_energy ps_energy].
  fold (live spec1). fold (live spec2).
  rewrite Hq, Hmq, Hdx. do 2 f_equal.
  assert (forall p, st_energy (step_of interpolate_fld ltrim spec1 emf p)
                    = st_energy (step_of interpolate_fld ltrim spec2 emf p)) as He.
  { intros p. unfold step_of, advance_particle, tem_of. cbn [st_energy].
    rewrite Hdt, Hmq. reflexivity. }
  rewrite (map_ext _ _ He). apply Rsum_perm.
  apply Permutation_map. exact Hperm.
Qed.

End AdvanceMore.

Section Overrun.
Local Open Scope R_scope.

Variable t_emf : Type.
Variable t_current : Type.
Variable interpolate_fld : t_emf -> t_part -> float3 * float3.
Variable ltrim : float -> Z.
Variable dep_current_zamb :
  Z -> Z -> float -> float -> float -> float -> float -> t_current -> t_current.
Variable spec_move_window : t_species -> t_species.
Variable spec_sort : t_species -> t_species.
Variable PART_BC_OPEN : Z.

Lemma push_body_at spec emf current k :
  (k < length (part spec))%nat -> (Z.of_nat k < int_max)%Z ->
  push_body interpolate_fld ltrim dep_current_zamb
            (tem_of spec) (dt_dx_of spec) (qnx_of spec) (q spec) emf
            (push_after interpolate_fld ltrim dep_current_zamb spec emf current k)
  = Done (push_after interpolate_fld ltrim dep_current_zamb spec emf current
                     (S k)).
Proof.
  intros Hkl Hmax.
  destruct (lookup_lt_is_Some_2 _ _ Hkl) as [p Hp].
  unfold push_body. unfold push_after; cbn [ps_i ps_part ps_current ps_energy].
  rewrite (read_part_Some _ _ p); [| lia |].
  2:{ rewrite Nat2Z.id, prefix_map_lookup. exact Hp. }
  cbn [mbind outcome_bind].
  rewrite (write_part_Some _ _ p); [| lia |].
  2:{ rewrite Nat2Z.id, prefix_map_lookup. exact Hp. }
  cbn [mbind outcome_bind]. f_equal.
  rewrite Nat2Z.id.
  fold (step_of interpolate_fld ltrim spec emf p).
  pose proof (prefix_map_step
                (fun p0 => st_part (step_of interpolate_fld ltrim spec emf p0))
                _ _ _ Hp) as Hs.
  cbv beta in Hs. rewrite Hs. clear Hs.
  rewrite (take_S_r _ _ _ Hp), fold_left_app, map_app.
  cbn [map fold_left]. rewrite Rsum_snoc.
  rewrite int_add_id.
  2:{ unfold int_range, int_min, int_max in *. lia. }
  f_equal. lia.
Qed.

Lemma push_body_past_buffer spec emf current :
  push_body interpolate_fld ltrim dep_current_zamb
            (tem_of spec) (dt_dx_of spec) (qnx_of spec) (q spec) emf
            (push_after interpolate_fld ltrim dep_current_zamb spec emf current
                        (length (part spec)))
  = Fault.
Proof.
  unfold push_body, push_after; cbn [ps_i ps_part].
  unfold read_part. destruct (Z.ltb_spec (Z.of_nat (length (part spec))) 0);
    [lia |].
  rewrite Nat2Z.id, prefix_map_lookup, (lookup_ge_None_2 (part spec)) by lia.
  reflexivity.
Qed.

Lemma push_run_past_buffer spec emf current (d k fuel : nat) :
  (k + d = length (part spec))%nat ->
  (Z.of_nat (length (part spec)) < np spec <= int_max)%Z ->
  (d < fuel)%nat ->
  while_loop (fun st : push_state t_current => (ps_i st <? np spec)%Z)
    (push_body interpolate_fld ltrim dep_current_zamb
               (tem_of spec) (dt_dx_of spec) (qnx_of spec) (q spec) emf)
    fuel
    (push_after interpolate_fld ltrim dep_current_zamb spec emf current k)
  = Fault.
Proof.
  revert k fuel. induction d as [| d IH]; intros k fuel Hk Hnp Hfuel;
    (destruct fuel as [| fuel]; [lia |]); simpl.
  - destruct (Z.ltb_spec (Z.of_nat k) (np spec)); [| lia].
    replace k with (length (part spec)) by lia.
    rewrite push_body_past_buffer. reflexivity.
  - destruct (Z.ltb_spec (Z.of_nat k) (np spec)); [| lia].
    rewrite push_body_at by lia. cbn [mbind outcome_bind].
    apply IH; lia.
Qed.

(** X16. A live count beyond the particle buffer is not caught: the main loop
    advances every slot of the buffer and then reads [part] past its end, and
    the function does not return normally. *)
Theorem main_loop_overruns_short_buffer spec emf current fuel :
  (Z.of_nat (length (part spec)) < np spec <= int_max)%Z ->
  (length (part spec) < fuel)%nat ->
  push_loop interpolate_fld ltrim dep_current_zamb fuel spec emf current
  = Fault /\
  spec_advance interpolate_fld ltrim dep_current_zamb spec_move_window
               spec_sort PART_BC_OPEN fuel spec emf current
  = Fault.
Proof.
  intros Hnp Hfuel.
  assert (push_loop interpolate_fld ltrim dep_current_zamb fuel spec emf current
          = Fault) as H.
  { unfold push_loop.
    pose proof (push_run_past_buffer spec emf current (length (part spec)) 0
                  fuel) as Hr.
    unfold push_after at 1 in Hr. unfold prefix_map in Hr.
    simpl in Hr. rewrite drop_0 in Hr. apply Hr; [reflexivity | lia | lia]. }
  split; [exact H |]. unfold spec_advance. rewrite H. reflexivity.
Qed.

End Overrun.

(** ** The further properties on concrete inputs *)

Section MoreInstances.
Local Open Scope R_scope.

Lemma displacement_below_dt_dx_witness :
  (1 : R) <> 0 /\
  Rabs (st_dx (advance_particle Ex.no_trim 1 1 1 (Ex.at_rest 2) zero3 zero3))
  < Rabs 1.
Proof.
  assert ((1 : R) <> 0) as H by lra.
  split; [exact H |].
  exact (proj1 (proj2 (displacement_below_dt_dx Ex.no_trim 1 1 1
                         (Ex.at_rest 2) zero3 zero3)) H).
Defined.

Lemma main_loop_advances_live_slots_witness :
  wf_species (Ex.species 0 Ex.bc_periodic) /\
  exists st,
    push_loop Ex.no_field Ex.no_trim Ex.no_deposit 4
              (Ex.species 0 Ex.bc_periodic) tt tt = Done st /\
    ps_i st = np (Ex.species 0 Ex.bc_periodic) /\
    length (ps_part st) = length (part (Ex.species 0 Ex.bc_periodic)).
Proof.
  split; [apply wf_example |].
  destruct (main_loop_advances_live_slots unit unit Ex.no_field Ex.no_trim
              Ex.no_deposit (Ex.species 0 Ex.bc_periodic) tt tt 4
              (wf_example 0 Ex.bc_periodic) (le_n 4))
    as (st & Hrun & Hi & Hlen & _).
  exists st. auto.
Defined.

Lemma advance_of_empty_species_witness :
  (np (set_np 0 (Ex.species 0 Ex.bc_open)) <= 0)%Z /\
  exists spec',
    spec_advance Ex.no_field Ex.no_trim Ex.no_deposit Ex.no_shift Ex.no_shift
                 Ex.bc_open 0 (set_np 0 (Ex.species 0 Ex.bc_open)) tt tt
    = Done (maybe_sort Ex.no_shift spec', tt) /\
    energy spec' = 0.
Proof.
  assert (np (set_np 0 (Ex.species 0 Ex.bc_open)) <= 0)%Z as H
    by (simpl; lia).
  split; [exact H |].
  destruct (advance_of_empty_species unit unit Ex.no_field Ex.no_trim
              Ex.no_deposit Ex.no_shift Ex.no_shift Ex.bc_open
              (set_np 0 (Ex.species 0 Ex.bc_open)) tt tt 0 H eq_refl)
    as (spec' & Hrun & _ & _ & He & _).
  exists spec'. auto.
Defined.

Lemma advance_periodic_witness :
  wf_species (Ex.species 0 Ex.bc_periodic) /\
  bc_type (Ex.species 0 Ex.bc_periodic) <> Ex.bc_open /\
  exists r,
    spec_advance Ex.no_field Ex.no_trim Ex.no_deposit Ex.no_shift Ex.no_shift
                 Ex.bc_open 4 (Ex.species 0 Ex.bc_periodic) tt tt
    = Done r.
Proof.
  assert (bc_type (Ex.species 0 Ex.bc_periodic) <> Ex.bc_open) as Hbc
    by (simpl; unfold Ex.bc_periodic, Ex.bc_open; lia).
  split; [apply wf_example |]. split; [exact Hbc |].
  eexists.
  exact (advance_periodic unit unit Ex.no_field Ex.no_trim Ex.no_deposit
           Ex.no_shift Ex.no_shift Ex.bc_open (Ex.species 0 Ex.bc_periodic)
           tt tt 4 (wf_example 0 Ex.bc_periodic) (le_n 4) eq_refl Hbc).
Defined.

Lemma wf_inside_example :
  wf_species (Ex.pair (Ex.at_rest 5) (Ex.at_rest 2) Ex.bc_open).
Proof. unfold wf_species, int_max. simpl. lia. Defined.

Lemma absorbing_scan_keeps_inside_species_witness :
  Forall (fun p => (0 <= ix p < 10)%Z)
         (live (Ex.pair (Ex.at_rest 5) (Ex.at_rest 2) Ex.bc_open)) /\
  absorb_scan 2 10 (Ex.pair (Ex.at_rest 5) (Ex.at_rest 2) Ex.bc_open)
  = Done (Ex.pair (Ex.at_rest 5) (Ex.at_rest 2) Ex.bc_open).
Proof.
  assert (Forall (fun p => (0 <= ix p < 10)%Z)
            (live (Ex.pair (Ex.at_rest 5) (Ex.at_rest 2) Ex.bc_open))) as H.
  { unfold live. simpl. repeat constructor; simpl; lia. }
  split; [exact H |].
  exact (absorbing_scan_keeps_inside_species 2 10 _ wf_inside_example
           (le_n 2) H).
Defined.

Lemma absorbing_scan_idempotent_witness :
  wf_species (Ex.species 0 Ex.bc_open) /\
  exists spec',
    absorb_scan 4 10 (Ex.species 0 Ex.bc_open) = Done spec' /\
    absorb_scan 4 10 spec' = Done spec'.
Proof.
  split; [apply wf_example |].
  exact (absorbing_scan_idempotent 4 10 (Ex.species 0 Ex.bc_open)
           (wf_example 0 Ex.bc_open) (le_n 4)).
Defined.

Lemma absorbing_scan_frame_witness :
  wf_species (Ex.species 0 Ex.bc_open) /\
  exists spec',
    absorb_scan 4 10 (Ex.species 0 Ex.bc_open) = Done spec' /\
    drop 4 (part spec') = [Ex.at_rest 7].
Proof.
  split; [apply wf_example |].
  destruct (absorbing_scan_frame 4 10 (Ex.species 0 Ex.bc_open)
              (wf_example 0 Ex.bc_open) (le_n 4))
    as (spec' & Hrun & Hdrop & _).
  exists spec'. split; [exact Hrun | exact Hdrop].
Defined.

Lemma periodic_wrap_is_single_witness :
  wf_species (Ex.species 0 Ex.bc_periodic) /\ (0 < 10 <= int_max)%Z /\
  exists spec',
    periodic_wrap 4 10 (Ex.species 0 Ex.bc_periodic) = Done spec' /\
    live spec' = map (wrap_ix 10) (live (Ex.species 0 Ex.bc_periodic)).
Proof.
  assert (0 < 10 <= int_max)%Z as Hnx by (unfold int_max; lia).
  split; [apply wf_example |]. split; [exact Hnx |].
  destruct (periodic_wrap_is_single 4 10 (Ex.species 0 Ex.bc_periodic)
              (wf_example 0 Ex.bc_periodic) (le_n 4) Hnx)
    as (spec' & Hrun & Hlive & _).
  exists spec'. auto.
Defined.

Lemma advance_open_witness :
  wf_species (Ex.species 0 Ex.bc_open) /\
  bc_type (Ex.species 0 Ex.bc_open) = Ex.bc_open /\
  exists spec' cur',
    spec_advance Ex.no_field Ex.no_trim Ex.no_deposit Ex.no_shift Ex.no_shift
                 Ex.bc_open 4 (Ex.species 0 Ex.bc_open) tt tt
    = Done (maybe_sort Ex.no_shift spec', cur') /\
    length (part spec') = length (part (Ex.species 0 Ex.bc_open)) /\
    iter spec' = int_add (iter (Ex.species 0 Ex.bc_open)) 1.
Proof.
  split; [apply wf_example |]. split; [reflexivity |].
  destruct (advance_open unit unit Ex.no_field Ex.no_trim Ex.no_deposit
              Ex.no_shift Ex.no_shift Ex.bc_open (Ex.species 0 Ex.bc_open)
              tt tt 4 (wf_example 0 Ex.bc_open) (le_n 4) eq_refl eq_refl)
    as (spec' & Hrun & _ & _ & Hlen & Hit & _).
  exists spec'. eexists. split; [exact Hrun |]. auto.
Defined.

Lemma stored_energy_nonneg_witness :
  wf_species (Ex.species 0 Ex.bc_open) /\
  0 <= q (Ex.species 0 Ex.bc_open) * m_q (Ex.species 0 Ex.bc_open) /\
  0 <= dx (Ex.species 0 Ex.bc_open) /\
  exists st,
    push_loop Ex.no_field Ex.no_trim Ex.no_deposit 4
              (Ex.species 0 Ex.bc_open) tt tt = Done st /\
    0 <= energy (store_energy (Ex.species 0 Ex.bc_open) st).
Proof.
  assert (0 <= q (Ex.species 0 Ex.bc_open) * m_q (Ex.species 0 Ex.bc_open))
    as Hqm by (simpl; lra).
  assert (0 <= dx (Ex.species 0 Ex.bc_open)) as Hdx by (simpl; lra).
  split; [apply wf_example |]. split; [exact Hqm |]. split; [exact Hdx |].
  exact (stored_energy_nonneg unit unit Ex.no_field Ex.no_trim Ex.no_deposit
           (Ex.species 0 Ex.bc_open) tt tt 4 (wf_example 0 Ex.bc_open)
           (le_n 4) Hqm Hdx).
Defined.

Lemma wf_pair_example (a b : t_part) :
  wf_species (Ex.pair a b Ex.bc_open).
Proof. unfold wf_species, int_max. simpl. lia. Defined.

Lemma stored_energy_order_independent_witness :
  live (Ex.pair (Ex.at_rest 5) (Ex.at_rest 2) Ex.bc_open)
  ≡ₚ live (Ex.pair (Ex.at_rest 2) (Ex.at_rest 5) Ex.bc_open) /\
  exists st1 st2,
    push_loop Ex.no_field Ex.no_trim Ex.no_deposit 2
      (Ex.pair (Ex.at_rest 5) (Ex.at_rest 2) Ex.bc_open) tt tt = Done st1 /\
    push_loop Ex.no_field Ex.no_trim Ex.no_deposit 2
      (Ex.pair (Ex.at_rest 2) (Ex.at_rest 5) Ex.bc_open) tt tt = Done st2 /\
    energy (store_energy
              (Ex.pair (Ex.at_rest 5) (Ex.at_rest 2) Ex.bc_open) st1)
    = energy (store_energy
                (Ex.pair (Ex.at_rest 2) (Ex.at_rest 5) Ex.bc_open) st2).
Proof.
  assert (live (Ex.pair (Ex.at_rest 5) (Ex.at_rest 2) Ex.bc_open)
          ≡ₚ live (Ex.pair (Ex.at_rest 2) (Ex.at_rest 5) Ex.bc_open)) as H
    by (unfold live; simpl; apply perm_swap).
  split; [exact H |].
  exact (stored_energy_order_independent unit unit Ex.no_field Ex.no_trim
           Ex.no_deposit (Ex.pair (Ex.at_rest 5) (Ex.at_rest 2) Ex.bc_open)
           (Ex.pair (Ex.at_rest 2) (Ex.at_rest 5) Ex.bc_open) tt tt tt 2
           (wf_pair_example _ _) (wf_pair_example _ _) (le_n 2) (le_n 2)
           eq_refl eq_refl eq_refl eq_refl H).
Defined.

Lemma main_loop_overruns_short_buffer_witness :
  (Z.of_nat (length (part (set_np 6 (Ex.species 0 Ex.bc_open))))
   < np (set_np 6 (Ex.species 0 Ex.bc_open)) <= int_max)%Z /\
  push_loop Ex.no_field Ex.no_trim Ex.no_deposit 6
            (set_np 6 (Ex.species 0 Ex.bc_open)) tt tt
  = Fault.
Proof.
  assert (Z.of_nat (length (part (set_np 6 (Ex.species 0 Ex.bc_open))))
          < np (set_np 6 (Ex.species 0 Ex.bc_open)) <= int_max)%Z as H
    by (unfold int_max; simpl; lia).
  split; [exact H |].
  refine (proj1 (main_loop_overruns_short_buffer unit unit Ex.no_field
                   Ex.no_trim Ex.no_deposit Ex.no_shift Ex.no_shift Ex.bc_open
                   (set_np 6 (Ex.species 0 Ex.bc_open)) tt tt 6 H _)).
  simpl. lia.
Defined.

End MoreInstances.

(** * The energy term in binary32 *)

(** ** Rounding keeps the sign *)








(** ** The operations of lines 83-90 on numbers that are not negative *)













(** ** Rounding at the bounds of the displacement *)

(** In binary32 the displacement reaches [dt_dx] for the momentum
    (4096, 0, 0): [1 + ux * ux] rounds to [ux * ux] and [rg * ux] to 1. *)
Example f32_dx_reaches_dt_dx :
  F32.dx_of F32.one (F32.mk_vec (F32.of_Z 4096 0) F32.zero F32.zero) = F32.one.
Proof. vm_compute. reflexivity. Qed.

(** It exceeds [dt_dx = 0.75] by one unit in the last place for the momentum
    (4120, 0, 0), and [qvy] exceeds [q = 3] for the momentum (0, 5507, 0). *)
Example f32_dx_exceeds_dt_dx :
  SFltb (F32.of_Z 3 (-2))
        (F32.dx_of (F32.of_Z 3 (-2))
                   (F32.mk_vec (F32.of_Z 4120 0) F32.zero F32.zero)) = true.
Proof. vm_compute. reflexivity. Qed.

Example f32_qvy_exceeds_q :
  SFltb (F32.of_Z 3 0)
        (F32.qvy_of (F32.of_Z 3 0)
                    (F32.mk_vec F32.zero (F32.of_Z 5507 0) F32.zero)) = true.
Proof. vm_compute. reflexivity. Qed.
